(** * Call-graph resolution of surya: a shallow embedding of
      [src/src/graph.js] and [src/src/utils/importer.js].

    JS objects used as maps are association lists kept in insertion order,
    JS [Set]s of strings are duplicate-free lists in insertion order
    (iteration order matters for the first-match rules of the resolver). *)

From Stdlib Require Import String Ascii List Bool Arith Lia.
Set Warnings "-register-all".

Import ListNotations.
Open Scope string_scope.
Open Scope list_scope.

(** ** JS values and objects *)

(** A JS value that is a string, [null] or [undefined]. *)
Inductive jsv := JNull | JUndef | JStr (s : string).

(** Property key a value turns into when used to index an object. *)
Definition jsv_key (v : jsv) : string :=
  match v with JNull => "null" | JUndef => "undefined" | JStr s => s end.

Definition obj (V : Type) := list (string * V).

Fixpoint get {V} (o : obj V) (k : string) : option V :=
  match o with
  | [] => None
  | (k', v) :: o' => if String.eqb k k' then Some v else get o' k
  end.

(** [o[k] = v]: an existing key keeps its position, a new key goes last. *)
Fixpoint put {V} (o : obj V) (k : string) (v : V) : obj V :=
  match o with
  | [] => [(k, v)]
  | (k', v') :: o' => if String.eqb k k' then (k, v) :: o' else (k', v') :: put o' k v
  end.

Definition has {V} (o : obj V) (k : string) : bool :=
  match get o k with Some _ => true | None => false end.

Definition getd {V} (d : V) (o : obj V) (k : string) : V :=
  match get o k with Some v => v | None => d end.

(** [Object.assign(target, src)] *)
Definition assign {V} (target src : obj V) : obj V :=
  fold_left (fun acc '(k, v) => put acc k v) src target.

Definition memb (x : string) (l : list string) : bool := existsb (String.eqb x) l.

(** [set.add(x)] on a JS [Set] of strings. *)
Definition sadd (s : list string) (x : string) : list string :=
  if memb x s then s else s ++ [x].

(** The property key of a JS [Set] object: [String(new Set())]. *)
Definition set_key (s : list string) : string := "[object Set]".

(** ** Strings *)

Fixpoint split_aux (c : ascii) (s : string) (cur : list ascii) : list string :=
  match s with
  | EmptyString => [string_of_list_ascii (rev cur)]
  | String a s' =>
      if Ascii.eqb a c then string_of_list_ascii (rev cur) :: split_aux c s' []
      else split_aux c s' (a :: cur)
  end.

(** [s.split(c)] for a one-character separator. *)
Definition split_on (c : ascii) (s : string) : list string := split_aux c s [].

(** [s.includes(sub)] *)
Fixpoint includes (s sub : string) : bool :=
  prefix sub s || match s with EmptyString => false | String _ s' => includes s' sub end.

(** [s.indexOf(pat)]; [None] is [-1]. *)
Fixpoint index_of (s pat : string) : option nat :=
  if prefix pat s then Some 0
  else match s with EmptyString => None | String _ s' => option_map S (index_of s' pat) end.

(** [GetSubstitution] of the ECMAScript standard for a string pattern (no
    captures): [$$] is [$], [$&] the matched text, [$`] the text before the match,
    [$'] the text after it; any other [$] stays as it is. *)
Fixpoint get_substitution (matched before after rep : string) : string :=
  match rep with
  | EmptyString => EmptyString
  | String a rep' =>
    let keep := String a (get_substitution matched before after rep') in
    if Ascii.eqb a "$" then
      match rep' with
      | String b r =>
          if Ascii.eqb b "$" then String "$" (get_substitution matched before after r)
          else if Ascii.eqb b "&" then (matched ++ get_substitution matched before after r)%string
          else if Ascii.eqb b "`" then (before ++ get_substitution matched before after r)%string
          else if Ascii.eqb b "'" then (after ++ get_substitution matched before after r)%string
          else keep
      | EmptyString => keep
      end
    else keep
  end.

(** [s.replace(pat, rep)] with a string pattern: the first occurrence only. *)
Definition replace_first (s pat rep : string) : string :=
  match index_of s pat with
  | None => s
  | Some i =>
      let before := substring 0 i s in
      let after := substring (i + String.length pat) (String.length s - (i + String.length pat)) s in
      (before ++ get_substitution pat before after rep ++ after)%string
  end.

Fixpoint ends_with (s suf : string) : bool :=
  String.eqb s suf || match s with EmptyString => false | String _ s' => ends_with s' suf end.

Definition strip_cr (s : string) : string :=
  if ends_with s (String (ascii_of_nat 13) EmptyString)
  then substring 0 (String.length s - 1) s else s.

(** The pieces of [s.split(/\r?\n/)]: a ["\r"] is removed only before a ["\n"],
    so the last piece keeps it. *)
Fixpoint strip_cr_init (l : list string) : list string :=
  match l with
  | [] => []
  | [x] => [x]
  | x :: l' => strip_cr x :: strip_cr_init l'
  end.

(** [s.split(/\r?\n/)] *)
Definition split_lines (s : string) : list string :=
  strip_cr_init (split_on (ascii_of_nat 10) s).

(** [s.substring(a, b)]: the bounds are clamped to the string and swapped when
    [a > b]. *)
Definition js_substring (s : string) (a b : nat) : string :=
  let lo := Nat.min (Nat.min a b) (String.length s) in
  let hi := Nat.min (Nat.max a b) (String.length s) in
  substring lo (hi - lo) s.

(** ** Inheritance linearization *)

(** Modelled from the spec: the linearizer [linearize(dependencies, {reverse: true})]
    of the external package [c3-linearization] (not part of the sources).
    Spec section 4.3: a C3 merge of the linearizations of the bases together with
    the base list itself, at each step taking the first candidate head that does
    not occur in the tail of another list, failing when there is none; the order is
    such that the contract comes first and [0_global] last, i.e. the base list
    ([0_global] first, then the bases as written) is taken in reverse. *)

Fixpoint remove_first (h : string) (l : list string) : list string :=
  match l with
  | [] => []
  | x :: l' => if String.eqb x h then l' else x :: remove_first h l'
  end.

Definition in_tail (h : string) (s : list string) : bool := memb h (tl s).

Fixpoint find_head (before after : list (list string)) : option string :=
  match after with
  | [] => None
  | [] :: after' => find_head (before ++ [[]]) after'
  | (h :: t) :: after' =>
      if existsb (in_tail h) (before ++ after') then find_head (before ++ [h :: t]) after'
      else Some h
  end.

Definition nonempty (s : list string) : bool := match s with [] => false | _ => true end.

Fixpoint merge_fuel (fuel : nat) (seqs : list (list string)) : option (list string) :=
  match seqs with
  | [] => Some []
  | _ =>
    match fuel with
    | 0 => None
    | S f =>
      match find_head [] seqs with
      | None => None
      | Some h =>
          match merge_fuel f (filter nonempty (map (remove_first h) seqs)) with
          | Some r => Some (h :: r)
          | None => None
          end
      end
    end
  end.

Definition merge (seqs : list (list string)) : option (list string) :=
  merge_fuel (S (length (concat seqs))) seqs.

Fixpoint mapM {A B} (f : A -> option B) (l : list A) : option (list B) :=
  match l with
  | [] => Some []
  | x :: l' => match f x, mapM f l' with Some y, Some r => Some (y :: r) | _, _ => None end
  end.

(** [_linearize(graph, head)]; running out of fuel is the circular-dependency error. *)
Fixpoint lin (fuel : nat) (g : obj (list string)) (head : string) : option (list string) :=
  match fuel with
  | 0 => None
  | S f =>
    match get g head with
    | None | Some [] => Some [head]
    | Some parents =>
        let ps := rev parents in
        match mapM (lin f g) ps with
        | Some seqs =>
            match merge (seqs ++ [ps]) with
            | Some m => Some (head :: m)
            | None => None
            end
        | None => None
        end
    end
  end.

Fixpoint dedup (l : list string) : list string :=
  match l with [] => [] | x :: l' => x :: filter (fun y => negb (String.eqb x y)) (dedup l') end.

(** The result object: one entry per contract and per name reached as a parent. *)
Definition linearize (g : obj (list string)) : option (obj (list string)) :=
  mapM (fun n => match lin (S (length g)) g n with Some l => Some (n, l) | None => None end)
       (dedup (map fst g ++ concat (map snd g))).

(** ** Syntax trees, as far as the visitors look at them *)

Inductive typeName :=
| TElementary (name : string)
| TUserDefined (namePath : string)
| TArray (baseTypeName : typeName)
| TMapping (keyType valueType : typeName)
| TOtherType.

(** [typeName.name] and [typeName.namePath]; [None] is [undefined]. *)
Definition tn_name (t : typeName) : option string :=
  match t with TElementary n => Some n | _ => None end.
Definition tn_namePath (t : typeName) : option string :=
  match t with TUserDefined p => Some p | _ => None end.

(** The [range] of a node, [[start, end]] offsets into its file's text. *)
Definition range := (nat * nat)%type.

Inductive expr :=
| EIdent (name : string)                      (* Identifier *)
| EMember (expression : expr) (memberName : string)  (* MemberAccess *)
| ECall (expression : expr) (arguments : list expr)  (* FunctionCall used as a value *)
| ETypeConv (typeName : string) (arguments : list (expr * range))
    (* elementary type conversion, e.g. address(x); its arguments with their ranges *)
| ENumber (number : string)                   (* NumberLiteral *)
| ELit.                                       (* any other expression *)

(** [VariableDeclaration]; parameters are [VariableDeclaration] nodes too. *)
Record var := mkVar { vname : option string; vtype : typeName }.

(** The nodes met in a function or modifier body, in traversal order. *)
Inductive bodyev :=
| BVar (v : var)                                (* VariableDeclaration *)
| BCall (expression : expr) (arguments : list (expr * range))   (* FunctionCall *)
| BModInv (name : string).                      (* ModifierInvocation *)

Inductive fkind := FRegular | FConstructor | FFallback | FReceive.

Record func := mkFunc { fkind_of : fkind; fname : string; fbody : list bodyev }.
Record modifier := mkModifier { mname : string; mbody : list bodyev }.

Inductive part :=
| PStateVars (variables : list var)            (* StateVariableDeclaration *)
| PFunction (f : func)                         (* FunctionDefinition *)
| PModifier (m : modifier)                     (* ModifierDefinition *)
| PEvent (name : string)                       (* EventDefinition *)
| PStruct (name : string)                      (* StructDefinition *)
| PError (name : string)                       (* CustomErrorDefinition *)
| PUsing (libraryName : string) (ty : option typeName).  (* UsingForDeclaration *)

Inductive ckind := KContract | KInterface | KLibrary.

Record contract := mkContract { cname : string; ckind_of : ckind; baseContracts : list string; subNodes : list part }.

Inductive item :=
| IContract (c : contract)   (* ContractDefinition *)
| IPart (p : part)           (* a file-level declaration *)
| IImport (path : string).   (* ImportDirective *)

Definition source_unit := list item.

(** ** The graph builder *)

Inductive ecolor := CDefault | CRegular | CError | CThis | CModifier.

(** The graph of the [graphviz] package: the clusters of the digraph (by contract
    name; the id is ["cluster<name>"]), the nodes of each cluster as
    [(cluster, node)] in the order [cluster.addNode] was called, the nodes of the
    digraph itself, and its edges. A cluster is a graph of its own: its nodes are
    not nodes of the digraph. *)
Record graph := mkGraph {
  clusters : list string;
  nodes : list (string * string);
  topNodes : list string;
  edges : list (string * string * ecolor) }.

Definition empty_graph := mkGraph [] [] [] [].

(** [digraph.getCluster(id)] *)
Definition getCluster (g : graph) (c : string) : bool := memb c (clusters g).

(** [digraph.addCluster(id)] *)
Definition addCluster (g : graph) (c : string) : graph :=
  mkGraph (clusters g ++ [c]) (nodes g) (topNodes g) (edges g).

(** [digraph.getNode(id)]: a node of the digraph itself, not of a cluster. *)
Definition getNode (g : graph) (n : string) : bool := memb n (topNodes g).

Definition pair_eqb (a b : string * string) : bool :=
  String.eqb (fst a) (fst b) && String.eqb (snd a) (snd b).

(** [cluster.addNode(id)]: a node of the cluster only; adding it again only
    resets its attributes. *)
Definition addNode (g : graph) (c n : string) : graph :=
  if existsb (pair_eqb (c, n)) (nodes g) then g
  else mkGraph (clusters g) (nodes g ++ [(c, n)]) (topNodes g) (edges g).

(** [digraph.addEdge(a, b)]: an endpoint that is not a node of the digraph is
    added to it ([this.addNode(id)]), then the edge is pushed. *)
Definition addEdge (g : graph) (a b : string) (col : ecolor) : graph :=
  mkGraph (clusters g) (nodes g) (sadd (sadd (topNodes g) a) b) (edges g ++ [(a, b, col)]).

(** ** First pass: declaration collection *)

(** The variables declared before the first loop (lines 43-53). [content] is the
    text of the file read last: the first loop assigns it, the second does not.
    Its initial [undefined] is never read, [""] stands for it. *)
Record decls := mkDecls {
  userDefinedStateVars : obj (obj (option string));
  stateVars : obj (obj (option string));
  dependencies : obj (list string);
  functionsPerContract : obj (list string);
  eventsPerContract : obj (list string);
  structsPerContract : obj (list string);
  contractUsingFor : obj (obj (list string));
  contractNames : list string;
  customErrorNames : list string;
  fileASTs : list source_unit;
  content : string }.

Definition init_decls : decls :=
  mkDecls [] [] [] [("0_global", [])] [("0_global", [])] [("0_global", [])] []
          ["0_global"] [] [] "".

Definition upd_in {V} (o : obj (obj V)) (c k : string) (v : V) : obj (obj V) :=
  put o c (put (getd [] o c) k v).

Definition push {V} (o : obj (list V)) (c : string) (x : V) : obj (list V) :=
  put o c (getd [] o c ++ [x]).

(** The tables reset for a contract name (and for [0_global] at each file). *)
Definition reset_tables (d : decls) (c : string) : decls :=
  mkDecls (put (userDefinedStateVars d) c []) (put (stateVars d) c [])
          (dependencies d) (put (functionsPerContract d) c [])
          (put (eventsPerContract d) c []) (put (structsPerContract d) c [])
          (put (contractUsingFor d) c []) (contractNames d) (customErrorNames d)
          (fileASTs d) (content d).

(** Modelled from the spec: the parser helpers [isUserDefinedDeclaration],
    [isElementaryTypeDeclaration], [isArrayDeclaration] and [isMappingDeclaration]
    (in the missing [utils/parserHelpers]) test the shape of the declared type. *)
Inductive decl_shape := DUser | DElementary | DArray | DMapping | DNone.

Definition decl_shape_of (v : var) : decl_shape :=
  match vtype v with
  | TUserDefined _ => DUser
  | TElementary _ => DElementary
  | TArray _ => DArray
  | TMapping _ _ => DMapping
  | TOtherType => DNone
  end.

Definition var_key (v : var) : string :=
  match vname v with Some n => n | None => "null" end.

Definition state_var (cn : string) (d : decls) (v : var) : decls :=
  let sv x := mkDecls (userDefinedStateVars d) (upd_in (stateVars d) cn (var_key v) x)
                 (dependencies d) (functionsPerContract d) (eventsPerContract d)
                 (structsPerContract d) (contractUsingFor d) (contractNames d)
                 (customErrorNames d) (fileASTs d) (content d) in
  match decl_shape_of v, vtype v with
  | DUser, t =>
      mkDecls (upd_in (userDefinedStateVars d) cn (var_key v) (tn_namePath t))
              (stateVars d) (dependencies d) (functionsPerContract d) (eventsPerContract d)
              (structsPerContract d) (contractUsingFor d) (contractNames d)
              (customErrorNames d) (fileASTs d) (content d)
  | DElementary, t => sv (tn_name t)
  | DArray, TArray b => sv (tn_namePath b)
  | DMapping, TMapping _ vt => sv (tn_name vt)
  | _, _ => d
  end.

Definition pass1_part (cn : string) (d : decls) (p : part) : decls :=
  match p with
  | PStateVars vs => fold_left (state_var cn) vs d
  | PFunction f =>
      mkDecls (userDefinedStateVars d) (stateVars d) (dependencies d)
              (push (functionsPerContract d) cn (fname f)) (eventsPerContract d)
              (structsPerContract d) (contractUsingFor d) (contractNames d)
              (customErrorNames d) (fileASTs d) (content d)
  | PModifier _ => d
  | PError n =>
      mkDecls (userDefinedStateVars d) (stateVars d) (dependencies d)
              (push (functionsPerContract d) cn n) (eventsPerContract d)
              (structsPerContract d) (contractUsingFor d) (contractNames d)
              (customErrorNames d ++ [n]) (fileASTs d) (content d)
  | PEvent n =>
      mkDecls (userDefinedStateVars d) (stateVars d) (dependencies d)
              (functionsPerContract d) (push (eventsPerContract d) cn n)
              (structsPerContract d) (contractUsingFor d) (contractNames d)
              (customErrorNames d) (fileASTs d) (content d)
  | PStruct n =>
      mkDecls (userDefinedStateVars d) (stateVars d) (dependencies d)
              (functionsPerContract d) (eventsPerContract d)
              (push (structsPerContract d) cn n) (contractUsingFor d) (contractNames d)
              (customErrorNames d) (fileASTs d) (content d)
  | PUsing lib ty =>
      let typeNameName :=
        match ty with
        | Some (TElementary n) => n
        | Some (TUserDefined p) => p
        | _ => "*"
        end in
      let cuf := getd [] (contractUsingFor d) cn in
      mkDecls (userDefinedStateVars d) (stateVars d) (dependencies d)
              (functionsPerContract d) (eventsPerContract d) (structsPerContract d)
              (put (contractUsingFor d) cn (put cuf typeNameName (sadd (getd [] cuf typeNameName) lib)))
              (contractNames d) (customErrorNames d) (fileASTs d) (content d)
  end.

(** [ContractDefinition] enter hook of the first pass. *)
Definition pass1_enter (d : decls) (g : graph) (c : contract) : decls * graph :=
  let n := cname c in
  let d1 := reset_tables d n in
  let d2 := mkDecls (userDefinedStateVars d1) (stateVars d1)
                    (put (dependencies d1) n ("0_global" :: baseContracts c))
                    (functionsPerContract d1) (eventsPerContract d1) (structsPerContract d1)
                    (contractUsingFor d1) (contractNames d1 ++ [n]) (customErrorNames d1)
                    (fileASTs d1) (content d1) in
  (d2, if getCluster g n then g else addCluster g n).

Definition pass1_item (dg : decls * graph) (it : item) : decls * graph :=
  let (d, g) := dg in
  match it with
  | IContract c => let (d1, g1) := pass1_enter d g c in (fold_left (pass1_part (cname c)) (subNodes c) d1, g1)
  | IPart p => (pass1_part "0_global" d p, g)
  | IImport _ => (d, g)
  end.

(** [content = fs.readFileSync(file).toString('utf-8')] (or [content = file]). *)
Definition set_content (dg : decls * graph) (t : string) : decls * graph :=
  let (d, g) := dg in
  (mkDecls (userDefinedStateVars d) (stateVars d) (dependencies d) (functionsPerContract d)
           (eventsPerContract d) (structsPerContract d) (contractUsingFor d) (contractNames d)
           (customErrorNames d) (fileASTs d) t, g).

(** One file of the first loop, once read and parsed. *)
Definition pass1_file (dg : decls * graph) (u : source_unit) : decls * graph :=
  let (d, g) := dg in
  let d1 := reset_tables d "0_global" in
  let d2 := mkDecls (userDefinedStateVars d1) (stateVars d1) (dependencies d1)
                    (functionsPerContract d1) (eventsPerContract d1) (structsPerContract d1)
                    (contractUsingFor d1) (contractNames d1) (customErrorNames d1)
                    (fileASTs d1 ++ [u]) (content d1) in
  fold_left pass1_item u (d2, g).

(** ** Second pass, per file: node registration *)

Definition is_special_name (fn : string) : bool :=
  String.eqb fn "<Fallback>" || String.eqb fn "<Receive Ether>" || String.eqb fn "<Constructor>".

Definition qname (c fn : string) : string := (c ++ "." ++ fn)%string.

(** [nodeName(functionName, contractName)]: the first contract of the
    linearization that already has a node for this member, else
    [contractName.functionName]. *)
Definition nodeName (deps : obj (list string)) (g : graph) (fn cn : string) : string :=
  if negb (is_special_name fn) && has deps cn then
    match find (fun dep => getNode g (qname dep fn)) (getd [] deps cn) with
    | Some dep => qname dep fn
    | None => qname cn fn
    end
  else qname cn fn.

Definition functionName (f : func) : string :=
  match fkind_of f with
  | FConstructor => "<Constructor>"
  | FFallback => "<Fallback>"
  | FReceive => "<Receive Ether>"
  | FRegular => fname f
  end.

(** State of the registration visitor: [contractName] and [cluster]
    ([None] is [null]). [None] as a whole result is a thrown TypeError. *)
Definition reg_part (deps : obj (list string)) (st : option (string * option string * graph)) (p : part)
  : option (string * option string * graph) :=
  match st with
  | None => None
  | Some (cn, cl, g) =>
    match p with
    | PFunction f =>
        match cl with
        | None => Some (cn, cl, g)
        | Some c => Some (cn, cl, addNode g c (nodeName deps g (functionName f) cn))
        end
    | PModifier m =>
        match cl with
        | None => None
        | Some c => Some (cn, cl, addNode g c (nodeName deps g (mname m) cn))
        end
    | _ => Some (cn, cl, g)
    end
  end.

(** [ContractDefinition] sets the contract and its cluster; its exit hook
    resets the contract name only. *)
Definition reg_item (deps : obj (list string)) (st : option (string * option string * graph)) (it : item)
  : option (string * option string * graph) :=
  match st with
  | None => None
  | Some (_, _, g) =>
    match it with
    | IContract c =>
        let cl := if getCluster g (cname c) then Some (cname c) else None in
        match fold_left (reg_part deps) (subNodes c) (Some (cname c, cl, g)) with
        | Some (_, cl', g') => Some ("0_global", cl', g')
        | None => None
        end
    | IPart p => reg_part deps st p
    | IImport _ => st
    end
  end.

Definition register_file (deps : obj (list string)) (g : graph) (u : source_unit) : option graph :=
  match fold_left (reg_item deps) u (Some ("0_global", None, g)) with
  | Some (_, _, g') => Some g'
  | None => None
  end.

(** ** Second pass, per file: call resolution *)

(** The options read by [graph(files, options)] (a missing option is [false]). *)
Record options := mkOptions {
  enableModifierEdges : bool;
  libraries : bool;
  importer : bool;
  contentsInFilePath : bool }.

Record scope := mkScope {
  contractName : string;
  callingScope : option string;
  userDefinedLocalVars : obj (option string);
  localVars : obj (option string);
  tempUserDefinedStateVars : obj (option string);
  tempStateVars : obj (option string);
  eventDefinitions : list string }.

Definition init_scope : scope := mkScope "0_global" None [] [] [] [] [].

(** [VariableDeclaration] handler. *)
Definition on_var (st : scope) (v : var) : scope :=
  match callingScope st, vname v with
  | None, _ => st
  | Some _, None => st
  | Some _, Some n =>
    match decl_shape_of v, vtype v with
    | DUser, t =>
        mkScope (contractName st) (callingScope st) (put (userDefinedLocalVars st) n (tn_namePath t))
                (localVars st) (tempUserDefinedStateVars st) (tempStateVars st) (eventDefinitions st)
    | DElementary, t =>
        mkScope (contractName st) (callingScope st) (userDefinedLocalVars st) (put (localVars st) n (tn_name t))
                (tempUserDefinedStateVars st) (tempStateVars st) (eventDefinitions st)
    | DArray, TArray b =>
        mkScope (contractName st) (callingScope st) (userDefinedLocalVars st) (put (localVars st) n (tn_namePath b))
                (tempUserDefinedStateVars st) (tempStateVars st) (eventDefinitions st)
    | DMapping, TMapping _ vt =>
        mkScope (contractName st) (callingScope st) (userDefinedLocalVars st) (put (localVars st) n (tn_name vt))
                (tempUserDefinedStateVars st) (tempStateVars st) (eventDefinitions st)
    | _, _ => st
    end
  end.

(** Modelled from the spec: the parser helper [isRegularFunctionCall] (in the
    missing [utils/parserHelpers]), with the arguments line 404 passes it: the
    node, [contractNames], the events and structs of the linearization and
    [customErrorNames]. The spec counts a plain-name call of a function, event or
    struct as regular and a custom error as an error; the helper is given no
    function names, so it takes any plain name that is neither a contract name
    (a conversion to a contract type) nor a custom error. *)
Definition isRegularFunctionCall (callee : expr) (contractNames eventsOfDependencies structsOfDependencies customErrorNames : list string) : bool :=
  match callee with
  | EIdent n => negb (memb n contractNames) && negb (memb n customErrorNames)
  | _ => false
  end.

(** Modelled from the spec: [isSpecialVariable] and [getSpecialVariableType]
    (in the missing [utils/parserHelpers]): a fixed table of the built-in
    message, transaction and block variables and their canonical types. *)
Fixpoint isSpecialVariable (e : expr) : bool :=
  match e with
  | EIdent n => memb n ["msg"; "tx"; "block"]
  | EMember e' _ => isSpecialVariable e'
  | _ => false
  end.

Definition special_variable_types : obj string :=
  [("msg.sender", "address"); ("msg.value", "uint256"); ("msg.data", "bytes");
   ("msg.sig", "bytes4"); ("tx.origin", "address"); ("tx.gasprice", "uint256");
   ("block.coinbase", "address"); ("block.timestamp", "uint256"); ("block.number", "uint256")].

Definition getSpecialVariableType (e : expr) : jsv :=
  match e with
  | EMember (EIdent r) m =>
      match get special_variable_types (qname r m) with Some t => JStr t | None => JUndef end
  | _ => JUndef
  end.

(** [isMemberAccessOfAddress] and [isAContractTypecast], on the callee. *)
Definition isMemberAccessOfAddress (callee : expr) : bool :=
  match callee with EMember (ETypeConv "address" _) _ => true | _ => false end.

Definition isAContractTypecast (callee : expr) (names : list string) : bool :=
  match callee with EMember (ECall (EIdent c) _) _ => memb c names | _ => false end.

Definition strip_quotes (s : string) : string :=
  string_of_list_ascii (filter (fun a => negb (Ascii.eqb a (ascii_of_nat 34))) (list_ascii_of_string s)).

Definition opt_jsv (o : option string) : jsv :=
  match o with Some s => JStr s | None => JUndef end.

Definition obind {A B} (o : option A) (f : A -> option B) : option B :=
  match o with Some a => f a | None => None end.

Definition chars (s : string) : list string :=
  map (fun a => String a EmptyString) (list_ascii_of_string s).

(** [new Set(...args)]: only the first argument counts, and a string
    argument gives the set of its characters. *)
Definition new_set_spread (args : list string) : list string :=
  match args with [] => [] | a :: _ => fold_left sadd (chars a) [] end.

(** [functionsPerContract[c] != undefined ? functionsPerContract[c].includes(name) : false] *)
Definition declares (fpc : obj (list string)) (name c : string) : bool :=
  match get fpc c with Some l => memb name l | None => false end.

(** Outcome of the "using for" block: keep the object, replace it by a library, or return. *)
Inductive dispatch := DKeep | DObject (lib : string) | DDrop.

(** Lines 470-509. *)
Definition using_for (d : decls) (opts : options) (cn name : string) (variableType : jsv) : dispatch :=
  let cuf := getd [] (contractUsingFor d) cn in
  let fpc := functionsPerContract d in
  let star_ok := has cuf "*" && has fpc (set_key (getd [] cuf "*")) in
  let pick (defs : list string) :=
    match filter (declares fpc name) defs with
    | [] => DKeep
    | c :: _ => if negb (libraries opts) then DObject c else DDrop
    end in
  match variableType with
  | JNull => if star_ok then pick (getd [] cuf "*") else DKeep
  | _ =>
      let k := jsv_key variableType in
      if has cuf k && has fpc (set_key (getd [] cuf k)) then
        pick (if star_ok then new_set_spread (getd [] cuf k ++ getd [] cuf "*")
              else new_set_spread (getd [] cuf k))
      else DKeep
  end.

(** Lines 517-524: the first contract of [dependencies[contractName]] declaring
    [name]; [None] is the TypeError of spreading [undefined]. *)
Definition super_target (deps fpc : obj (list string)) (cn name : string) : option (option string) :=
  match get deps cn with
  | Some l => Some (find (declares fpc name) l)
  | None => None
  end.

(** [content.substring(range[0], range[1]+1)] with its double quotes removed
    (lines 424, 435): the source text of an argument, read from [content], the text of the last
    file the first loop read. *)
Definition arg_text (d : decls) (r : range) : string :=
  strip_quotes (js_substring (content d) (fst r) (snd r + 1)).

(** Lines 418-441: the object of a member call, and the member name. [None] is
    the exception thrown by [expr.expression.arguments[0]] on a conversion
    without arguments. *)
Definition member_object (d : decls) (callee : expr) (args : list (expr * range)) (oe : expr) (name : string)
  : option (option string * string) :=
  match oe with
  | EIdent n => Some (Some n, name)
  | _ =>
    if isMemberAccessOfAddress callee then
      let name' := if String.eqb name "call" then
                     match args with (_, r) :: _ => arg_text d r | [] => "<Fallback>" end
                   else name in
      match oe with
      | ETypeConv _ ((EIdent n, _) :: _) => Some (Some n, name')
      | ETypeConv _ ((ENumber k, _) :: _) => Some (Some ("address(" ++ k ++ ")")%string, name')
      | ETypeConv _ ((_, r0) :: _) => Some (Some (arg_text d r0), name')
      | _ => None
      end
    else if isAContractTypecast callee (contractNames d) then
      match oe with ECall (EIdent c) _ => Some (Some c, name) | _ => Some (None, name) end
    else Some (None, name)
  end.

(** Lines 444-467: the declared type of the object. *)
Definition variable_type (st : scope) (oe : expr) (object : option string) : jsv :=
  let vt :=
    if isSpecialVariable oe then getSpecialVariableType oe
    else match oe with
    | ETypeConv t _ => JStr t
    | _ =>
      let k := match object with Some o => o | None => "null" end in
      if has (localVars st) k then opt_jsv (getd None (localVars st) k)
      else if has (userDefinedLocalVars st) k then opt_jsv (getd None (userDefinedLocalVars st) k)
      else if has (tempUserDefinedStateVars st) k then opt_jsv (getd None (tempUserDefinedStateVars st) k)
      else if has (tempStateVars st) k then opt_jsv (getd None (tempStateVars st) k)
      else JNull
    end in
  match vt with JStr "uint" => JStr "uint256" | _ => vt end.

(** Lines 411-531: the target contract, member name and color of a member call;
    [Some None] is an early [return] (no edge). *)
Definition member_target (d : decls) (deps : obj (list string)) (opts : options) (st : scope)
  (callee : expr) (args : list (expr * range)) (oe : expr) (memberName : string)
  : option (option (string * string * ecolor)) :=
  obind (member_object d callee args oe memberName) (fun '(object, name) =>
  let cn := contractName st in
  match using_for d opts cn name (variable_type st oe object) with
  | DDrop => Some None
  | disp =>
    let object := match disp with DObject lib => Some lib | _ => object end in
    match object with
    | None => Some None
    | Some o =>
      if String.eqb o "this" then Some (Some (cn, name, CThis))
      else if String.eqb o "super" then
        obind (super_target deps (functionsPerContract d) cn name) (fun t =>
          match t with
          | Some c => Some (Some (c, name, CDefault))
          | None => Some None
          end)
      else
        match get (tempUserDefinedStateVars st) o with
        | Some (Some p) => Some (Some (p, name, CDefault))
        | _ =>
          match get (userDefinedLocalVars st) o with
          | Some (Some p) => Some (Some (p, name, CDefault))
          | _ => Some (Some (o, name, CDefault))
          end
        end
    end
  end).

(** [FunctionCall] handler (lines 379-579). *)
Definition on_call (d : decls) (deps : obj (list string)) (opts : options) (st : scope) (g : graph)
  (callee : expr) (args : list (expr * range)) : option graph :=
  match callingScope st with
  | None => Some g
  | Some scopeName =>
    let cn := contractName st in
    let depl := if has deps cn then getd [] deps cn else [] in
    let evs := concat (map (getd [] (eventsPerContract d)) depl) in
    let sts := concat (map (getd [] (structsPerContract d)) depl) in
    let target :=
      if isRegularFunctionCall callee (contractNames d) evs sts (customErrorNames d) then
        match callee with EIdent n => Some (Some (cn, n, CRegular)) | _ => Some None end
      else match callee with
      | EIdent n => if memb n (customErrorNames d) then Some (Some (cn, n, CError)) else Some None
      | EMember oe m => member_target d deps opts st callee args oe m
      | _ => Some None
      end in
    obind target (fun t =>
    match t with
    | None => Some g
    | Some (lcn, name, col) =>
        let g1 := if getCluster g lcn then g else addCluster g lcn in
        let lnn := nodeName deps g1 name lcn in
        let g2 := if getNode g1 lnn then g1 else addNode g1 lcn lnn in
        Some (addEdge g2 scopeName lnn col)
    end)
  end.

(** [FunctionDefinition] and [ModifierDefinition] enter hooks. *)
Definition enter_scope (st : scope) (s : string) : scope :=
  mkScope (contractName st) (Some s) (userDefinedLocalVars st) (localVars st)
          (tempUserDefinedStateVars st) (tempStateVars st) (eventDefinitions st).

(** ['FunctionDefinition:exit'] *)
Definition exit_function (st : scope) : scope :=
  mkScope (contractName st) None [] [] (tempUserDefinedStateVars st) (tempStateVars st)
          (eventDefinitions st).

(** ['ModifierDefinition:exit'] *)
Definition exit_modifier (st : scope) : scope :=
  mkScope (contractName st) None (userDefinedLocalVars st) (localVars st)
          (tempUserDefinedStateVars st) (tempStateVars st) (eventDefinitions st).

Definition on_event (d : decls) (deps : obj (list string)) (opts : options)
  (sg : option (scope * graph)) (ev : bodyev) : option (scope * graph) :=
  obind sg (fun '(st, g) =>
  match ev with
  | BVar v => Some (on_var st v, g)
  | BCall callee args => obind (on_call d deps opts st g callee args) (fun g' => Some (st, g'))
  | BModInv n =>
      match callingScope st with
      | Some s =>
          if enableModifierEdges opts
          then Some (st, addEdge g s (nodeName deps g n (contractName st)) CModifier)
          else Some (st, g)
      | None => Some (st, g)
      end
  end).

Definition on_part (d : decls) (deps : obj (list string)) (opts : options)
  (sg : option (scope * graph)) (p : part) : option (scope * graph) :=
  obind sg (fun '(st, g) =>
  match p with
  | PFunction f =>
      let st1 := enter_scope st (nodeName deps g (functionName f) (contractName st)) in
      obind (fold_left (on_event d deps opts) (fbody f) (Some (st1, g)))
            (fun '(st2, g2) => Some (exit_function st2, g2))
  | PModifier m =>
      let st1 := enter_scope st (nodeName deps g (mname m) (contractName st)) in
      obind (fold_left (on_event d deps opts) (mbody m) (Some (st1, g)))
            (fun '(st2, g2) => Some (exit_modifier st2, g2))
  | PEvent n =>
      Some (mkScope (contractName st) (callingScope st) (userDefinedLocalVars st) (localVars st)
                    (tempUserDefinedStateVars st) (tempStateVars st) (eventDefinitions st ++ [n]), g)
  | _ => Some (st, g)
  end).

(** [ContractDefinition] enter hook of the resolution visitor: the state
    variables of the linearization are merged in, then the contract's own. *)
Definition enter_contract (d : decls) (deps : obj (list string)) (st : scope) (n : string) : scope :=
  let tud := fold_left (fun acc dep => assign acc (getd [] (userDefinedStateVars d) dep))
                       (getd [] deps n) (tempUserDefinedStateVars st) in
  let tsv := fold_left (fun acc dep => assign acc (getd [] (stateVars d) dep))
                       (getd [] deps n) (tempStateVars st) in
  mkScope n (callingScope st) (userDefinedLocalVars st) (localVars st)
          (assign tud (getd [] (userDefinedStateVars d) n))
          (assign tsv (getd [] (stateVars d) n)) (eventDefinitions st).

Definition exit_contract (st : scope) : scope :=
  mkScope "0_global" (callingScope st) (userDefinedLocalVars st) (localVars st) [] []
          (eventDefinitions st).

Definition on_item (d : decls) (deps : obj (list string)) (opts : options)
  (sg : option (scope * graph)) (it : item) : option (scope * graph) :=
  match it with
  | IContract c =>
      obind sg (fun '(st, g) =>
      obind (fold_left (on_part d deps opts) (subNodes c) (Some (enter_contract d deps st (cname c), g)))
            (fun '(st', g') => Some (exit_contract st', g')))
  | IPart p => on_part d deps opts sg p
  | IImport _ => sg
  end.

Definition resolve_file (d : decls) (deps : obj (list string)) (opts : options) (g : graph)
  (u : source_unit) : option graph :=
  obind (fold_left (on_item d deps opts) u (Some (init_scope, g))) (fun '(_, g') => Some g').

(** ** The first loop and the second loop *)

(** Reading one input: its text and parsed tree, [EISDIR], or any other read or
    parse error. *)
Inductive readres := RSource (text : string) (u : source_unit) | RIsDir | RFail.

(** The first loop (lines 56-198): a directory is skipped, any other failure is
    thrown; [content] is set to the text of each file read. *)
Fixpoint first_loop (read : string -> readres) (files : list string) (dg : decls * graph)
  : option (decls * graph) :=
  match files with
  | [] => Some dg
  | f :: fs =>
      match read f with
      | RIsDir => first_loop read fs dg
      | RFail => None
      | RSource t u => first_loop read fs (pass1_file (set_content dg t) u)
      end
  end.

(** The second loop (lines 202-581): registration, then resolution, file by file. *)
Definition second_loop (d : decls) (deps : obj (list string)) (opts : options) (g : graph)
  : option graph :=
  fold_left (fun og u => obind og (fun g0 => obind (register_file deps g0 u)
                                               (fun g1 => resolve_file d deps opts g1 u)))
            (fileASTs d) (Some g).

(** ** The import-closure resolver ([src/src/utils/importer.js]) *)

(** Absolute paths as their segments; [path_str] is the string [path] returns. *)
Definition path := list string.

Definition path_str (p : path) : string := ("/" ++ String.concat "/" p)%string.

Fixpoint path_eqb (p q : path) : bool :=
  match p, q with
  | [], [] => true
  | a :: p', b :: q' => String.eqb a b && path_eqb p' q'
  | _, _ => false
  end.

Definition join_seg (acc : path) (s : string) : path :=
  if String.eqb s "" || String.eqb s "." then acc
  else if String.eqb s ".." then removelast acc else acc ++ [s].

(** [path.join(dir, rel)] *)
Definition join (dir : path) (rel : string) : path :=
  fold_left join_seg (split_on "/" rel) dir.

(** [path.resolve(dir, p)] *)
Definition resolve (dir : path) (p : string) : path :=
  if prefix "/" p then join [] p else join dir p.

(** The file system as the resolver sees it. *)
Record fsys := mkFs {
  readdir : path -> list string;        (* fs.readdirSync *)
  read_text : path -> string;           (* fs.readFileSync(p, 'utf-8') *)
  is_file : path -> bool;               (* fs.existsSync(p) && fs.statSync(p).isFile() *)
  read_source : path -> readres }.      (* fs.readFileSync, then the tolerant parse *)

Inductive err :=
| InvalidImportPath      (* "Invalid import path" *)
| UnresolvedRemapping    (* "... no corresponding directory could be found." *)
| MultipleAssignment     (* "Multiple assignment symbols found in remappings.txt." *)
| ImportNotFile          (* "Import path not resolved to a file" *)
| ReadOrParseError       (* any other read error, or a parse error, rethrown *)
| OutOfFuel.             (* not reached with the fuel the definitions give *)

Inductive res (A : Type) := Ok (a : A) | Err (e : err).
Arguments Ok {A} a.
Arguments Err {A} e.

(** The upward walk (lines 92-106): [currentDir] and [currentDirArray]. *)
Fixpoint walk (fs : fsys) (topLen fuel : nat) (cur : path) (arr : list string)
  : res (path * bool * bool) :=
  match fuel with
  | 0 => Err OutOfFuel
  | S f =>
    if Nat.ltb (length arr) topLen then Err UnresolvedRemapping
    else
      let contents := readdir fs cur in
      let nodeModulesBool := memb "node_modules" contents in
      let forgeRemappingsBool := memb "remappings.txt" contents in
      if nodeModulesBool || forgeRemappingsBool then Ok (cur, nodeModulesBool, forgeRemappingsBool)
      else walk fs topLen f (removelast cur) (removelast arr)
  end.

(** Scan of the manifest lines (lines 114-127). *)
Inductive scanres := SFound (input output : string) | SNone | SMulti.

Fixpoint scan (importBase : string) (lines : list string) : scanres :=
  match lines with
  | [] => SNone
  | l :: ls =>
      let remappingSplit := split_on "=" l in
      if Nat.ltb 2 (length remappingSplit) then SMulti
      else if includes (hd "" remappingSplit) importBase
      then SFound (hd "" remappingSplit)
                  (match remappingSplit with _ :: o :: _ => o | _ => "undefined" end)
      else scan importBase ls
  end.

(** The walk started from the importing file (lines 72-106). *)
Definition walk_from (fs : fsys) (baseFilePath projectDir : path) : res (path * bool * bool) :=
  let topmostDirArray := split_on "/" (path_str projectDir) in
  let baseDirPath := removelast baseFilePath in
  let currentDirArray := removelast (split_on "/" (path_str baseDirPath)) in
  walk fs (length topmostDirArray) (S (length currentDirArray)) (removelast baseDirPath) currentDirArray.

Definition resolveImportPath (fs : fsys) (baseFilePath : path) (importedFilePath : string)
  (projectDir : path) : res path :=
  let baseDirPath := removelast baseFilePath in
  let first := substring 0 1 importedFilePath in
  let resolved :=
    if String.eqb first "." || String.eqb first "/" then Ok (resolve baseDirPath importedFilePath)
    else
      match walk_from fs baseFilePath projectDir with
      | Err e => Err e
      | Ok (currentDir, _, forgeRemappingsBool) =>
        let importBase := hd "" (split_on "/" importedFilePath) in
        let remap :=
          if forgeRemappingsBool then
            match scan importBase (split_lines (read_text fs (currentDir ++ ["remappings.txt"]))) with
            | SMulti => Err MultipleAssignment
            | SFound i o => Ok (i, o)
            | SNone => Ok ("", "")
            end
          else Ok ("", "") in
        match remap with
        | Err e => Err e
        | Ok (forgeRemappingInput, forgeRemappingOutput) =>
            if negb forgeRemappingsBool || String.eqb forgeRemappingInput ""
            then Ok (join (join currentDir "node_modules") importedFilePath)
            else Ok (join currentDir (replace_first importedFilePath forgeRemappingInput forgeRemappingOutput))
        end
      end in
  match resolved with
  | Err e => Err e
  | Ok p => if is_file fs p then Ok p else Err ImportNotFile
  end.

Definition imports_of (u : source_unit) : list string :=
  flat_map (fun it => match it with IImport p => [p] | _ => [] end) u.

Fixpoint resolve_all (fs : fsys) (file : path) (projectDir : path) (importedFiles : list path)
  (ps : list string) : res (list path) :=
  match ps with
  | [] => Ok []
  | p :: ps' =>
      match resolveImportPath fs file p projectDir with
      | Err e => Err e
      | Ok newFile =>
          match resolve_all fs file projectDir importedFiles ps' with
          | Err e => Err e
          | Ok rest => Ok (if existsb (path_eqb newFile) importedFiles then rest else newFile :: rest)
          end
      end
  end.

(** [importProfiler(files, projectDir, importedFiles)]. The [Set] is shared by
    the recursive calls, so it is threaded through and returned; the result is
    its content, also on the early [return importedFiles] of a directory. *)
Fixpoint importProfiler (fuel : nat) (fs : fsys) (projectDir : path) (files : list string)
  (importedFiles : list path) : res (list path) :=
  match fuel with
  | 0 => Err OutOfFuel
  | S f =>
    let fix loop (files : list string) (importedFiles : list path) : res (list path) :=
      match files with
      | [] => Ok importedFiles
      | file :: rest =>
        let file' := resolve projectDir file in
        if negb (prefix (path_str projectDir) (path_str file')) || negb (ends_with (path_str file') ".sol")
        then Err InvalidImportPath
        else
          match read_source fs file' with
          | RIsDir => Ok importedFiles
          | RFail => Err ReadOrParseError
          | RSource _ u =>
            let imported1 := if existsb (path_eqb file') importedFiles then importedFiles
                             else importedFiles ++ [file'] in
            match resolve_all fs file' projectDir imported1 (imports_of u) with
            | Err e => Err e
            | Ok newFiles =>
              match importProfiler f fs projectDir (map path_str newFiles) imported1 with
              | Err e => Err e
              | Ok imported2 => loop rest imported2
              end
            end
          end
      end in
    loop files importedFiles
  end.

(** ** The whole run of [graph(files, options)] *)

(** The environment of a run: the file system, [process.cwd()] (also the
    [projectDir] of the importer), the parser [parser.parse(content, {range: true})]
    of line 74 and the fuel of the importer's recursion. *)
Record env := mkEnv {
  efs : fsys;
  cwd : path;
  parse : string -> option source_unit;
  fuel : nat }.

(** One input of the first loop (lines 57-83): with [contentsInFilePath] the
    entry is the source text itself; otherwise the file is read
    ([fs.readFileSync], relative to the working directory) and its text parsed. *)
Definition read_input (e : env) (opts : options) (f : string) : readres :=
  if contentsInFilePath opts then
    match parse e f with Some u => RSource f u | None => RFail end
  else
    match read_source (efs e) (resolve (cwd e) f) with
    | RSource t _ => match parse e t with Some u => RSource t u | None => RFail end
    | r => r
    end.

(** Lines 37-41: the import closure when [importer] is on (and the inputs are
    files), the distinct entries otherwise; [None] is an exception. *)
Definition graph_files (e : env) (opts : options) (files : list string) : option (list string) :=
  if negb (contentsInFilePath opts) && importer opts then
    match importProfiler (fuel e) (efs e) (cwd e) files [] with
    | Ok ps => Some (map path_str ps)
    | Err _ => None
    end
  else Some (dedup files).

Definition graph_run (e : env) (opts : options) (files : list string) : option graph :=
  match files with
  | [] => None
  | _ =>
    obind (graph_files e opts files) (fun files' =>
    obind (first_loop (read_input e opts) files' (init_decls, empty_graph)) (fun '(d, g) =>
    obind (linearize (dependencies d)) (fun deps => second_loop d deps opts g)))
  end.

(** ** Scenarios *)

Definition no_options := mkOptions false false false false.

(** [{importer: true}] *)
Definition importer_options := mkOptions false false true false.

Definition fn (n : string) (body : list bodyev) : part := PFunction (mkFunc FRegular n body).

Definition local (n t : string) : bodyev := BVar (mkVar (Some n) (TElementary t)).

(** A source file: its name, its text, and the tree the parser gives for it. *)
Definition source := (string * string * source_unit)%type.

(** Reading the sources by name; any other name is a directory. *)
Definition read_from (srcs : list source) (f : string) : readres :=
  match find (fun '(n, _, _) => String.eqb n f) srcs with
  | Some (_, t, u) => RSource t u
  | None => RIsDir
  end.

(** The parser on the texts of the sources; any other text is a parse error. *)
Definition parse_of (srcs : list source) (t : string) : option source_unit :=
  match find (fun '(_, t', _) => String.eqb t' t) srcs with
  | Some (_, _, u) => Some u
  | None => None
  end.

(** The sources as files of the root directory [/], the working directory. *)
Definition src_fs (srcs : list source) : fsys :=
  mkFs (fun _ => map (fun '(n, _, _) => n) srcs) (fun _ => "")
       (fun p => existsb (fun '(n, _, _) => path_eqb p [n]) srcs)
       (fun p => match p with [n] => read_from srcs n | _ => RIsDir end).

Definition src_env (srcs : list source) : env := mkEnv (src_fs srcs) [] (parse_of srcs) 5.

(** [library SafeMath { function add(uint256 x, uint256 y) public {} }]
    [contract Token { using SafeMath for uint256; function f(uint256 a, uint256 b) public { a.add(b); } }] *)
Definition safemath_text : string :=
  "library SafeMath { function add(uint256 x, uint256 y) public {} } contract Token { using SafeMath for uint256; function f(uint256 a, uint256 b) public { a.add(b); } }".

Definition safemath_sol : source_unit :=
  [IContract (mkContract "SafeMath" KLibrary [] [fn "add" [local "x" "uint256"; local "y" "uint256"]]);
   IContract (mkContract "Token" KContract []
     [PUsing "SafeMath" (Some (TElementary "uint256"));
      fn "f" [local "a" "uint256"; local "b" "uint256";
              BCall (EMember (EIdent "a") "add") [(EIdent "b", (159, 159))]]])].

(** [contract A { function f() public {} }] [contract B is A { function f() public {} }]
    [contract C is B { function g() public { super.f(); } }] *)
Definition super_text : string :=
  "contract A { function f() public {} } contract B is A { function f() public {} } contract C is B { function g() public { super.f(); } }".

Definition super_sol : source_unit :=
  [IContract (mkContract "A" KContract [] [fn "f" []]);
   IContract (mkContract "B" KContract ["A"] [fn "f" []]);
   IContract (mkContract "C" KContract ["B"] [fn "g" [BCall (EMember (EIdent "super") "f") []]])].

(** [contract A { function f() public {} }]
    [contract C is A { function f() public { super.f(); } }] *)
Definition self_text : string :=
  "contract A { function f() public {} } contract C is A { function f() public { super.f(); } }".

Definition self_sol : source_unit :=
  [IContract (mkContract "A" KContract [] [fn "f" []]);
   IContract (mkContract "C" KContract ["A"] [fn "f" [BCall (EMember (EIdent "super") "f") []]])].

(** [contract B { function foo() public {} }]
    [contract C is B { function g() public { foo(); } }] *)
Definition bc_text : string :=
  "contract B { function foo() public {} } contract C is B { function g() public { foo(); } }".

Definition bc_sol : source_unit :=
  [IContract (mkContract "B" KContract [] [fn "foo" []]);
   IContract (mkContract "C" KContract ["B"] [fn "g" [BCall (EIdent "foo") []]])].

(** [function g() {}] [function f() { g(); }] [contract K { function h() public { g(); } }] *)
Definition free_text : string :=
  "function g() {} function f() { g(); } contract K { function h() public { g(); } }".

Definition free_sol : source_unit :=
  [IPart (fn "g" []); IPart (fn "f" [BCall (EIdent "g") []]);
   IContract (mkContract "K" KContract [] [fn "h" [BCall (EIdent "g") []]])].

(** The functions [g] and [f] of [free_sol]. *)
Definition free_g : func := mkFunc FRegular "g" [].

(** [contract A { function f() public {} function h() public { f(); } }] and,
    in a second file, [contract B is A { function f() public {} }] *)
Definition a5_text : string :=
  "contract A { function f() public {} function h() public { f(); } }".

Definition a5_sol : source_unit :=
  [IContract (mkContract "A" KContract [] [fn "f" []; fn "h" [BCall (EIdent "f") []]])].

Definition b5_text : string := "contract B is A { function f() public {} }".

Definition b5_sol : source_unit := [IContract (mkContract "B" KContract ["A"] [fn "f" []])].

(** The double quote character. *)
Definition dq : string := String (ascii_of_nat 34) EmptyString.

(** [contract X { function f(address t) public { address(t).call(<dq>ping<dq>); } }],
    where [<dq>] is a double quote. *)
Definition x_text : string :=
  ("contract X { function f(address t) public { address(t).call(" ++ dq ++ "ping" ++ dq ++ "); } }")%string.

Definition x_call : bodyev :=
  BCall (EMember (ETypeConv "address" [(EIdent "t", (52, 52))]) "call") [(ELit, (60, 65))].

Definition x_sol : source_unit :=
  [IContract (mkContract "X" KContract [] [fn "f" [local "t" "address"; x_call]])].

(** [contract Y { function h() public {} function withdraw() public {} }] *)
Definition y_text : string := "contract Y { function h() public {} function withdraw() public {} }".

Definition y_sol : source_unit :=
  [IContract (mkContract "Y" KContract [] [fn "h" []; fn "withdraw" []])].

(** [contract A {}] [contract B {}] [contract C is A, B {}] *)
Definition abc_text : string := "contract A {} contract B {} contract C is A, B {}".

Definition abc_sol : source_unit :=
  [IContract (mkContract "A" KContract [] []);
   IContract (mkContract "B" KContract [] []);
   IContract (mkContract "C" KContract ["A"; "B"] [])].

(** [contract M { modifier m() { uint256 x; _; } function h() public { uint256 x; } }] *)
Definition mod_sol : source_unit :=
  [IContract (mkContract "M" KContract []
     [PModifier (mkModifier "m" [local "x" "uint256"]); fn "h" [local "x" "uint256"]])].

(** [contract A { uint256 x; }] [contract B is A { address x; }] [contract C is B { bool x; }]
    [contract D is C {}] *)
Definition shadow_text : string :=
  "contract A { uint256 x; } contract B is A { address x; } contract C is B { bool x; } contract D is C {}".

Definition shadow_sol : source_unit :=
  [IContract (mkContract "A" KContract [] [PStateVars [mkVar (Some "x") (TElementary "uint256")]]);
   IContract (mkContract "B" KContract ["A"] [PStateVars [mkVar (Some "x") (TElementary "address")]]);
   IContract (mkContract "C" KContract ["B"] [PStateVars [mkVar (Some "x") (TElementary "bool")]]);
   IContract (mkContract "D" KContract ["C"] [])].

(** The state of the run when the resolution visitor is inside a method. *)
Definition decls_of (files : list source_unit) : decls :=
  fst (fold_left pass1_file files (init_decls, empty_graph)).

Definition deps_of (files : list source_unit) : obj (list string) :=
  match linearize (dependencies (decls_of files)) with Some r => r | None => [] end.

Definition registered (files : list source_unit) : graph :=
  fold_left (fun g u => match register_file (deps_of files) g u with Some g' => g' | None => g end)
            files (snd (fold_left pass1_file files (init_decls, empty_graph))).

Definition scope_in (files : list source_unit) (c s : string) : scope :=
  enter_scope (enter_contract (decls_of files) (deps_of files) init_scope c) s.

(** [contract A { function f() public {} }] *)
Definition a_text : string := "contract A { function f() public {} }".

Definition a_sol : source_unit := [IContract (mkContract "A" KContract [] [fn "f" []])].

(** A project [/proj] with a manifest at its root, the importing file
    [/proj/src/Token.sol], the library file [/proj/lib/openzeppelin/token/ERC20.sol],
    the source file [/proj/src/A.sol] and directories [/proj/contracts] and [/proj/dir.sol]. *)
Definition proj_fs (manifest : string) : fsys :=
  mkFs (fun p => if path_eqb p ["proj"] then ["remappings.txt"; "src"; "lib"; "contracts"; "dir.sol"] else [])
       (fun p => if path_eqb p ["proj"; "remappings.txt"] then manifest else "")
       (fun p => path_eqb p ["proj"; "lib"; "openzeppelin"; "token"; "ERC20.sol"]
                 || path_eqb p ["proj"; "src"; "A.sol"] || path_eqb p ["proj"; "src"; "Token.sol"])
       (fun p => if path_eqb p ["proj"; "contracts"] || path_eqb p ["proj"; "dir.sol"] then RIsDir
                 else if path_eqb p ["proj"; "src"; "A.sol"] then RSource a_text a_sol
                 else RFail).

(** A run in [/proj], with an empty manifest. *)
Definition proj_env : env := mkEnv (proj_fs "") ["proj"] (parse_of [("src/A.sol", a_text, a_sol)]) 5.

Definition newline : string := String (ascii_of_nat 10) EmptyString.

(** ** Invariants of the first pass and of the linearization *)

Definition cnt (x : string) (l : list string) : nat := count_occ string_dec l x.

(** [l] ends with [0_global] and has it nowhere else. *)
Definition zterm (l : list string) : Prop :=
  exists l', l = l' ++ ["0_global"] /\ ~ In "0_global" l'.

(** [q] has no [0_global] and no element more often than [p]. *)
Definition bounded (p q : list string) : Prop :=
  ~ In "0_global" q /\ forall x, cnt x q <= cnt x p.

(** The shape of the raw dependency map: [dependencies[k] = ['0_global', ...bases]]. *)
Definition deps_shape (g : obj (list string)) : Prop :=
  forall k ps, get g k = Some ps ->
    k <> "0_global" /\ exists bs, ps = "0_global" :: bs /\ ~ In "0_global" bs.

Definition deps_ok (d : decls) : Prop :=
  deps_shape (dependencies d) /\
  forall c, In c (contractNames d) -> c = "0_global" \/ has (dependencies d) c = true.

(** No contract of the file is named [0_global] or lists it as a base (a Solidity
    identifier cannot start with a digit). *)
Definition names_ok (u : source_unit) : Prop :=
  forall k, In (IContract k) u -> cname k <> "0_global" /\ ~ In "0_global" (baseContracts k).

(** ** Invariants of the registration, resolution and import passes *)

(** Only cluster nodes are added: clusters, digraph nodes and edges stay as they are. *)
Definition grows (g g' : graph) : Prop :=
  clusters g' = clusters g /\ topNodes g' = topNodes g /\ edges g' = edges g /\
  exists t, nodes g' = nodes g ++ t.

(** The nodes of the digraph itself are the endpoints of its edges. *)
Definition top_ok (g : graph) : Prop :=
  forall n, getNode g n = true <-> exists a b col, In (a, b, col) (edges g) /\ (n = a \/ n = b).

(** Each per-contract table has one entry per name. *)
Definition tab_ok {V} (t : obj (obj V)) : Prop :=
  forall c o, get t c = Some o -> NoDup (map fst o).

Definition vars_ok (d : decls) : Prop :=
  tab_ok (stateVars d) /\ tab_ok (userDefinedStateVars d).

(** A path that passes the check of [importProfiler] (line 20). *)
Definition valid_import (pd p : path) : bool :=
  prefix (path_str pd) (path_str p) && ends_with (path_str p) ".sol".

(** The content of [importedFiles]: distinct paths, each valid and read and parsed. *)
Definition imported_ok (fs : fsys) (pd : path) (imp : list path) : Prop :=
  NoDup imp /\ forall p, In p imp -> valid_import pd p = true /\ exists t u, read_source fs p = RSource t u.

(** An optional result of the resolution visitor whose graph has [top_ok]. *)
Definition sg_ok (sg : option (scope * graph)) : Prop :=
  match sg with Some (_, g) => top_ok g | None => True end.

(** The value of an optional result, [d] for none. *)
Definition some_or {A} (d : A) (o : option A) : A := match o with Some a => a | None => d end.

(** A project [/proj] whose manifest maps [@oz/] to [lib/openzeppelin/]: [src/Token.sol]
    imports [./A.sol] and [@oz/token/ERC20.sol], [src/A.sol] imports [./Token.sol] back,
    and [lib/openzeppelin/token/ERC20.sol] imports nothing. *)
Definition imp_fs : fsys :=
  mkFs (fun p => if path_eqb p ["proj"] then ["remappings.txt"; "src"; "lib"] else [])
       (fun p => if path_eqb p ["proj"; "remappings.txt"] then "@oz/=lib/openzeppelin/" else "")
       (fun p => path_eqb p ["proj"; "lib"; "openzeppelin"; "token"; "ERC20.sol"]
                 || path_eqb p ["proj"; "src"; "A.sol"] || path_eqb p ["proj"; "src"; "Token.sol"])
       (fun p => if path_eqb p ["proj"; "src"; "Token.sol"]
                 then RSource ("import " ++ dq ++ "./A.sol" ++ dq ++ "; import " ++ dq ++ "@oz/token/ERC20.sol" ++ dq ++ ";")
                             [IImport "./A.sol"; IImport "@oz/token/ERC20.sol"]
                 else if path_eqb p ["proj"; "src"; "A.sol"] then RSource ("import " ++ dq ++ "./Token.sol" ++ dq ++ ";") [IImport "./Token.sol"]
                 else if path_eqb p ["proj"; "lib"; "openzeppelin"; "token"; "ERC20.sol"] then RSource "contract ERC20 {}" [IContract (mkContract "ERC20" KContract [] [])]
                 else RFail).


(** ** Helper lemmas *)

Lemma using_for_keeps (d : decls) (opts : options) (cn name : string) (vt : jsv) :
  has (functionsPerContract d) "[object Set]" = false ->
  using_for d opts cn name vt = DKeep.
Proof.
  intros H. unfold using_for, set_key. rewrite H.
  destruct vt; rewrite ?andb_false_r; reflexivity.
Qed.


Lemma memb_In (x : string) (l : list string) : memb x l = true <-> In x l.
Proof.
  unfold memb. rewrite existsb_exists. split.
  - intros [y [Hy Heq]]. apply String.eqb_eq in Heq. now subst.
  - intros H. exists x. split; [exact H | apply String.eqb_refl].
Qed.

Lemma fold_left_inv {A B} (P : A -> Prop) (f : A -> B -> A) (l : list B) (a : A) :
  (forall a b, In b l -> P a -> P (f a b)) -> P a -> P (fold_left f l a).
Proof.
  revert a. induction l as [|b l IH]; intros a Hf Ha; simpl; [exact Ha|].
  apply IH; [intros a' b' Hb'; apply Hf; now right|]. apply Hf; [now left|exact Ha].
Qed.

Lemma get_In {V} (o : obj V) (k : string) (v : V) : get o k = Some v -> In (k, v) o.
Proof.
  induction o as [|[k' v'] o IH]; simpl; [discriminate|].
  destruct (String.eqb_spec k k') as [->|_]; [intros [= ->]; now left|intros H; right; auto].
Qed.

Lemma In_get {V} (o : obj V) (k : string) (v : V) : In (k, v) o -> exists v', get o k = Some v'.
Proof.
  induction o as [|[k' v'] o IH]; simpl; [tauto|].
  destruct (String.eqb_spec k k') as [->|Hne]; [eauto|].
  intros [E|H]; [injection E as -> ->; congruence|auto].
Qed.

Lemma get_put {V} (o : obj V) (k k' : string) (v : V) :
  get (put o k v) k' = if String.eqb k' k then Some v else get o k'.
Proof.
  induction o as [|[k0 v0] o IH]; simpl; [reflexivity|].
  destruct (String.eqb_spec k k0) as [->|Hne]; simpl.
  - destruct (String.eqb k' k0); reflexivity.
  - rewrite IH. destruct (String.eqb_spec k' k0); destruct (String.eqb_spec k' k);
      subst; try congruence; reflexivity.
Qed.

Lemma has_put {V} (o : obj V) (k k' : string) (v : V) :
  has (put o k v) k' = String.eqb k' k || has o k'.
Proof. unfold has. rewrite get_put. now destruct (String.eqb k' k). Qed.

Lemma dedup_In (x : string) (l : list string) : In x l -> In x (dedup l).
Proof.
  induction l as [|y l IH]; simpl; [tauto|].
  intros [->|H]; [now left|].
  destruct (String.eqb_spec y x) as [->|Hne]; [now left|right].
  apply filter_In. split; [auto|]. destruct (String.eqb_spec y x); [congruence|reflexivity].
Qed.

Lemma mapM_In_inv {A B} (f : A -> option B) (xs : list A) (ys : list B) :
  mapM f xs = Some ys -> forall y, In y ys -> exists x, In x xs /\ f x = Some y.
Proof.
  revert ys. induction xs as [|x xs IH]; intros ys H y Hy; simpl in H.
  - injection H as <-. destruct Hy.
  - destruct (f x) as [y0|] eqn:Ex; destruct (mapM f xs) as [r|] eqn:Er; try discriminate.
    injection H as <-. destruct Hy as [<-|Hy].
    + exists x. split; [now left|exact Ex].
    + destruct (IH r eq_refl y Hy) as [x' [Hx' Hf]]. exists x'. split; [now right|exact Hf].
Qed.

Lemma mapM_In {A B} (f : A -> option B) (xs : list A) (ys : list B) :
  mapM f xs = Some ys -> forall x, In x xs -> exists y, f x = Some y /\ In y ys.
Proof.
  revert ys. induction xs as [|x xs IH]; intros ys H x' Hx; simpl in H; [destruct Hx|].
  destruct (f x) as [y0|] eqn:Ex; destruct (mapM f xs) as [r|] eqn:Er; try discriminate.
  injection H as <-. destruct Hx as [<-|Hx].
  - exists y0. split; [exact Ex|now left].
  - destruct (IH r eq_refl x' Hx) as [y [Hy Hin]]. exists y. split; [exact Hy|now right].
Qed.

Lemma remove_first_In (h x : string) (q : list string) :
  In x (remove_first h q) -> In x q.
Proof.
  induction q as [|y q IH]; simpl; [tauto|].
  destruct (String.eqb y h); simpl; intuition.
Qed.

Lemma remove_first_keep (h x : string) (q : list string) :
  x <> h -> In x q -> In x (remove_first h q).
Proof.
  intros Hne. induction q as [|y q IH]; simpl; [tauto|].
  destruct (String.eqb_spec y h) as [->|Hyh]; simpl.
  - intros [->|Hx]; [congruence|exact Hx].
  - intros [->|Hx]; [now left|right; auto].
Qed.

Lemma remove_first_notin (h : string) (q : list string) :
  ~ In h q -> remove_first h q = q.
Proof.
  induction q as [|y q IH]; simpl; [reflexivity|].
  intros Hn. destruct (String.eqb_spec y h) as [->|_]; [tauto|]. f_equal. apply IH. tauto.
Qed.

Lemma remove_first_cnt_other (h x : string) (q : list string) :
  x <> h -> cnt x (remove_first h q) = cnt x q.
Proof.
  intros Hne. unfold cnt. induction q as [|y q IH]; simpl; [reflexivity|].
  destruct (String.eqb_spec y h) as [->|Hyh].
  - destruct (string_dec h x); [congruence|reflexivity].
  - simpl. destruct (string_dec y x); rewrite IH; reflexivity.
Qed.

Lemma remove_first_cnt_self (h : string) (q : list string) :
  In h q -> S (cnt h (remove_first h q)) = cnt h q.
Proof.
  unfold cnt. induction q as [|y q IH]; simpl; [tauto|].
  intros Hin. destruct (String.eqb_spec y h) as [->|Hyh].
  - destruct (string_dec h h); [reflexivity|congruence].
  - simpl. destruct (string_dec y h); [congruence|]. apply IH. destruct Hin; [congruence|assumption].
Qed.

Lemma remove_first_zterm (h : string) (q : list string) :
  h <> "0_global" -> zterm q -> zterm (remove_first h q).
Proof.
  intros Hh [q' [-> Hq']]. exists (remove_first h q'). split.
  - clear Hq'. induction q' as [|y q' IH]; cbn [app remove_first].
    + destruct (String.eqb_spec "0_global" h); [congruence|reflexivity].
    + destruct (String.eqb y h); [reflexivity|]. cbn [app]. f_equal. exact IH.
  - intros Hin. apply Hq'. eapply remove_first_In; eauto.
Qed.

Lemma find_head_spec (before after : list (list string)) (h : string) :
  find_head before after = Some h ->
  (exists t, In (h :: t) after) /\
  forall q, In q (before ++ after) -> hd_error q = Some h \/ in_tail h q = false.
Proof.
  revert before. induction after as [|s after IH]; intros before Hf; simpl in Hf; [discriminate|].
  destruct s as [|h' t].
  - destruct (IH _ Hf) as [[t Ht] Hall]. split; [exists t; now right|].
    intros q Hq. apply Hall. rewrite <- app_assoc. exact Hq.
  - destruct (existsb (in_tail h') (before ++ after)) eqn:E.
    + destruct (IH _ Hf) as [[t' Ht] Hall]. split; [exists t'; now right|].
      intros q Hq. apply Hall. rewrite <- app_assoc. exact Hq.
    + injection Hf as <-. split; [exists t; now left|].
      intros q Hq. apply in_app_or in Hq.
      assert (Hother : In q (before ++ after) -> in_tail h' q = false).
      { intros Hq'. apply not_true_is_false. intros Ht.
        assert (existsb (in_tail h') (before ++ after) = true)
          by (apply existsb_exists; exists q; split; [exact Hq'|exact Ht]).
        congruence. }
      destruct Hq as [Hq|[<-|Hq]].
      * right. apply Hother. apply in_or_app. now left.
      * left. reflexivity.
      * right. apply Hother. apply in_or_app. now right.
Qed.

Lemma merge_fuel_nil (f : nat) : merge_fuel f [] = Some [].
Proof. destruct f; reflexivity. Qed.

Lemma merge_fuel_step (f : nat) (s : list string) (ss : list (list string)) :
  merge_fuel (S f) (s :: ss) =
  match find_head [] (s :: ss) with
  | None => None
  | Some h =>
      match merge_fuel f (filter nonempty (map (remove_first h) (s :: ss))) with
      | Some r => Some (h :: r)
      | None => None
      end
  end.
Proof. reflexivity. Qed.

(** Every element of the merged sequences is in the merge. *)
Lemma merge_fuel_In (f : nat) (seqs : list (list string)) (l : list string) :
  merge_fuel f seqs = Some l -> forall q x, In q seqs -> In x q -> In x l.
Proof.
  revert seqs l. induction f as [|f IH]; intros seqs l Hm q x Hq Hx.
  - destruct seqs; [destruct Hq|discriminate].
  - destruct seqs as [|s ss]; [destruct Hq|].
    rewrite merge_fuel_step in Hm.
    destruct (find_head [] (s :: ss)) as [h|]; [|discriminate].
    destruct (merge_fuel f (filter nonempty (map (remove_first h) (s :: ss)))) as [r|] eqn:Er;
      [|discriminate].
    injection Hm as <-.
    destruct (String.eqb_spec x h) as [->|Hne]; [now left|right].
    assert (Hk : In x (remove_first h q)) by (now apply remove_first_keep).
    apply (IH _ r Er (remove_first h q) x); [|exact Hk].
    apply filter_In. split; [now apply in_map|].
    destruct (remove_first h q); [destruct Hk|reflexivity].
Qed.

Lemma zterm_head (q : list string) :
  zterm q -> hd_error q = Some "0_global" \/ in_tail "0_global" q = false -> q = ["0_global"].
Proof.
  intros [q' [-> Hq']] H. destruct q' as [|a q'']; [reflexivity|].
  exfalso. simpl in H. destruct H as [H|H].
  - injection H as ->. apply Hq'. now left.
  - unfold in_tail in H. simpl in H.
    assert (memb "0_global" (q'' ++ ["0_global"]) = true)
      by (apply memb_In; apply in_or_app; right; now left).
    congruence.
Qed.

Lemma bounded_root_nil (q : list string) : bounded ["0_global"] q -> q = [].
Proof.
  intros [Hz Hc]. destruct q as [|a q]; [reflexivity|]. exfalso.
  specialize (Hc a). unfold cnt in Hc. cbn [count_occ] in Hc.
  destruct (string_dec a a) as [_|]; [|congruence].
  destruct (string_dec "0_global" a) as [<-|]; [apply Hz; now left|lia].
Qed.

Lemma filter_remove_root (seqs : list (list string)) :
  (forall q, In q seqs -> q = ["0_global"]) ->
  filter nonempty (map (remove_first "0_global") seqs) = [].
Proof.
  induction seqs as [|q seqs IH]; intros H; [reflexivity|].
  rewrite (H q (or_introl eq_refl)). simpl. apply IH. intros q' Hq'. apply H. now right.
Qed.

(** The merge keeps [0_global] last when one sequence [p] ends with it and every
    other sequence either ends with it too or takes its elements from [p]. *)
Lemma merge_fuel_zterm (f : nat) (seqs : list (list string)) (l p : list string) :
  merge_fuel f seqs = Some l -> In p seqs -> zterm p ->
  (forall q, In q seqs -> q <> [] /\ (zterm q \/ bounded p q)) -> zterm l.
Proof.
  revert seqs l p. induction f as [|f IH]; intros seqs l p Hm Hp Hzp Hall.
  - destruct seqs; [destruct Hp|discriminate].
  - destruct seqs as [|s ss]; [destruct Hp|].
    rewrite merge_fuel_step in Hm.
    destruct (find_head [] (s :: ss)) as [h|] eqn:Ef; [|discriminate].
    destruct (merge_fuel f (filter nonempty (map (remove_first h) (s :: ss)))) as [r|] eqn:Er;
      [|discriminate].
    injection Hm as <-.
    destruct (find_head_spec _ _ _ Ef) as [_ Hhead]. rewrite app_nil_l in Hhead.
    destruct (String.eqb_spec h "0_global") as [->|Hh].
    + assert (Hpz : p = ["0_global"]) by (apply zterm_head; [exact Hzp|exact (Hhead p Hp)]).
      assert (Hroot : forall q, In q (s :: ss) -> q = ["0_global"]).
      { intros q Hq. destruct (Hall q Hq) as [Hne [Hzq|Hb]].
        - apply zterm_head; [exact Hzq|exact (Hhead q Hq)].
        - rewrite Hpz in Hb. apply bounded_root_nil in Hb. contradiction. }
      rewrite (filter_remove_root _ Hroot), merge_fuel_nil in Er. injection Er as <-.
      exists []. split; [reflexivity|intros []].
    + assert (Hr : zterm r).
      { apply (IH _ r (remove_first h p) Er).
        - apply filter_In. split; [now apply in_map|].
          destruct (remove_first_zterm h p Hh Hzp) as [p' [-> _]]. destruct p'; reflexivity.
        - now apply remove_first_zterm.
        - intros q' Hq'. apply filter_In in Hq'. destruct Hq' as [Hq' Hne].
          apply in_map_iff in Hq'. destruct Hq' as [q [<- Hq]].
          split; [intros E; rewrite E in Hne; discriminate|].
          destruct (Hall q Hq) as [_ [Hzq|[Hbz Hbc]]].
          + left. now apply remove_first_zterm.
          + right. split.
            * intros Hin. apply Hbz. eapply remove_first_In; eauto.
            * intros x. destruct (String.eqb_spec x h) as [->|Hxh].
              -- destruct (in_dec string_dec h q) as [Hin|Hnin].
                 ++ assert (Hp' : In h p).
                    { apply (count_occ_In string_dec). specialize (Hbc h). unfold cnt in Hbc.
                      apply (count_occ_In string_dec) in Hin. lia. }
                    pose proof (remove_first_cnt_self h q Hin).
                    pose proof (remove_first_cnt_self h p Hp').
                    specialize (Hbc h). lia.
                 ++ rewrite (remove_first_notin h q Hnin).
                    apply (count_occ_not_In string_dec) in Hnin. unfold cnt at 1. rewrite Hnin. lia.
              -- rewrite !remove_first_cnt_other by exact Hxh. apply Hbc. }
      destruct Hr as [r' [-> Hr']]. exists (h :: r'). split; [reflexivity|].
      intros [E|E]; [congruence|contradiction].
Qed.

Section Lin.

Variable g : obj (list string).
Hypothesis Hg : deps_shape g.

(** What [_linearize] returns for a name: the name first; a name without an
    entry alone; a contract's list ending with [0_global] and containing its bases. *)
Lemma lin_shape (f : nat) : forall h l, lin f g h = Some l ->
  hd_error l = Some h /\ (get g h = None -> l = [h]) /\ (get g h <> None -> zterm l) /\
  (forall b, In b (getd [] g h) -> In b l).
Proof.
  induction f as [|f IH]; intros h l H; [discriminate|].
  cbn [lin] in H. unfold getd. destruct (get g h) as [ps|] eqn:E.
  - destruct (Hg h ps E) as [Hh [bs [-> Hbs]]].
    set (ps := rev ("0_global" :: bs)) in *.
    destruct (mapM (lin f g) ps) as [seqs|] eqn:Em; [|discriminate].
    destruct (merge (seqs ++ [ps])) as [m|] eqn:Emg; [|discriminate].
    injection H as <-. unfold merge in Emg.
    assert (Hzp : zterm ps).
    { exists (rev bs). split; [reflexivity|]. rewrite <- in_rev. exact Hbs. }
    assert (Hzm : zterm m).
    { apply (merge_fuel_zterm _ _ m ps Emg).
      - apply in_or_app. right. now left.
      - exact Hzp.
      - intros q Hq. apply in_app_or in Hq. destruct Hq as [Hq|[<-|[]]].
        + destruct (mapM_In_inv _ _ _ Em _ Hq) as [x [Hx Hlx]].
          destruct (IH x q Hlx) as [Hhd [Hnone [Hsome _]]].
          split; [intros E0; rewrite E0 in Hhd; discriminate|].
          destruct (get g x) eqn:Ex.
          * left. apply Hsome. discriminate.
          * rewrite (Hnone eq_refl). destruct (String.eqb_spec x "0_global") as [->|Hxz].
            -- left. exists []. split; [reflexivity|intros []].
            -- right. split; [intros [E'|[]]; congruence|].
               intros y. unfold cnt. simpl. destruct (string_dec x y) as [<-|]; [|lia].
               apply (count_occ_In string_dec) in Hx. lia.
        + split; [|left; exact Hzp].
          destruct Hzp as [ps' [E0 _]]. rewrite E0. intros E1. destruct ps'; discriminate. }
    destruct Hzm as [m' [-> Hm']].
    split; [reflexivity|]. split; [discriminate|]. split.
    + intros _. exists (h :: m'). split; [reflexivity|]. intros [E'|E']; [congruence|contradiction].
    + intros b Hb. right.
      apply (merge_fuel_In _ _ _ Emg ps b); [apply in_or_app; right; now left|].
      unfold ps. rewrite <- in_rev. exact Hb.
  - injection H as <-. split; [reflexivity|]. split; [reflexivity|]. split; [congruence|].
    intros b [].
Qed.

End Lin.

Lemma linearize_get (g deps : obj (list string)) (c : string) (l : list string) :
  linearize g = Some deps -> get deps c = Some l -> lin (S (length g)) g c = Some l.
Proof.
  intros Hl Hc. apply get_In in Hc.
  destruct (mapM_In_inv _ _ _ Hl _ Hc) as [x [_ Hx]].
  destruct (lin (S (length g)) g x) eqn:E; [|discriminate]. injection Hx as -> ->. exact E.
Qed.

Lemma linearize_has (g deps : obj (list string)) (c : string) :
  linearize g = Some deps -> has g c = true -> exists l, get deps c = Some l.
Proof.
  intros Hl Hc. unfold has in Hc. destruct (get g c) as [ps|] eqn:E; [|discriminate].
  apply get_In in E.
  assert (Hin : In c (dedup (map fst g ++ concat (map snd g)))).
  { apply dedup_In, in_or_app. left. apply in_map_iff. exists (c, ps). auto. }
  destruct (mapM_In _ _ _ Hl _ Hin) as [y [Hy Hys]].
  destruct (lin (S (length g)) g c) as [l|]; [|discriminate]. injection Hy as <-.
  exact (In_get _ _ _ Hys).
Qed.

Lemma deps_ok_keep (d d' : decls) :
  dependencies d' = dependencies d -> contractNames d' = contractNames d -> deps_ok d -> deps_ok d'.
Proof. intros E1 E2. unfold deps_ok. now rewrite E1, E2. Qed.

Lemma state_var_keeps (cn : string) (d : decls) (v : var) :
  dependencies (state_var cn d v) = dependencies d /\ contractNames (state_var cn d v) = contractNames d.
Proof. unfold state_var. destruct (decl_shape_of v), (vtype v); split; reflexivity. Qed.

Lemma pass1_part_ok (cn : string) (d : decls) (p : part) : deps_ok d -> deps_ok (pass1_part cn d p).
Proof.
  intros Hd. destruct p; try exact Hd; cbn [pass1_part].
  apply (fold_left_inv deps_ok); [|exact Hd].
  intros a v _ Ha. destruct (state_var_keeps cn a v) as [E1 E2]. exact (deps_ok_keep a _ E1 E2 Ha).
Qed.

Lemma pass1_enter_ok (d : decls) (g : graph) (c : contract) :
  cname c <> "0_global" -> ~ In "0_global" (baseContracts c) -> deps_ok d ->
  deps_ok (fst (pass1_enter d g c)).
Proof.
  intros Hn Hb [Hs Hc]. unfold pass1_enter, deps_ok, deps_shape.
  cbn [fst dependencies contractNames reset_tables]. split.
  - intros k ps. rewrite get_put. destruct (String.eqb_spec k (cname c)) as [->|Hk].
    + intros [= <-]. split; [exact Hn|]. exists (baseContracts c). split; [reflexivity|exact Hb].
    + apply Hs.
  - intros x Hx. rewrite has_put. apply in_app_or in Hx.
    destruct (String.eqb_spec x (cname c)) as [->|Hxc]; [now right|]. simpl.
    destruct Hx as [Hx|[E|[]]]; [exact (Hc x Hx)|congruence].
Qed.

Lemma pass1_item_ok (u : source_unit) (dg : decls * graph) (it : item) :
  names_ok u -> In it u -> deps_ok (fst dg) -> deps_ok (fst (pass1_item dg it)).
Proof.
  intros Hu Hit Hd. destruct dg as [d g]. destruct it as [c|p|i].
  - destruct (Hu c Hit) as [Hn Hb].
    pose proof (pass1_enter_ok d g c Hn Hb Hd) as He.
    change (pass1_item (d, g) (IContract c)) with
      (let (d1, g1) := pass1_enter d g c in (fold_left (pass1_part (cname c)) (subNodes c) d1, g1)).
    destruct (pass1_enter d g c) as [d1 g1]. simpl in He |- *.
    apply (fold_left_inv deps_ok); [|exact He].
    intros a b _ Ha. now apply pass1_part_ok.
  - exact (pass1_part_ok "0_global" d p Hd).
  - exact Hd.
Qed.

Lemma pass1_file_ok (dg : decls * graph) (u : source_unit) :
  names_ok u -> deps_ok (fst dg) -> deps_ok (fst (pass1_file dg u)).
Proof.
  intros Hu Hd. destruct dg as [d g]. unfold pass1_file.
  apply (fold_left_inv (fun dg => deps_ok (fst dg))); [|exact Hd].
  intros a b Hb Ha. exact (pass1_item_ok u a b Hu Hb Ha).
Qed.

Lemma set_content_ok (dg : decls * graph) (t : string) : deps_ok (fst dg) -> deps_ok (fst (set_content dg t)).
Proof. destruct dg as [d g]. intros H. exact H. Qed.

Lemma first_loop_ok (read : string -> readres) (files : list string) (dg dg' : decls * graph) :
  (forall f t u, read f = RSource t u -> names_ok u) ->
  first_loop read files dg = Some dg' -> deps_ok (fst dg) -> deps_ok (fst dg').
Proof.
  intros Hr. revert dg. induction files as [|f fs IH]; intros dg H Hd; simpl in H.
  - injection H as <-. exact Hd.
  - destruct (read f) as [t u| |] eqn:E; try discriminate.
    + exact (IH _ H (pass1_file_ok _ u (Hr f t u E) (set_content_ok dg t Hd))).
    + exact (IH _ H Hd).
Qed.

Lemma init_deps_ok : deps_ok init_decls.
Proof. split; [intros k ps H; simpl in H; discriminate|]. intros c [<-|[]]. now left. Qed.

Lemma scan_skip (ib : string) (pre lines : list string) :
  (forall y, In y pre -> Nat.ltb 2 (length (split_on "=" y)) = false /\
                         includes (hd "" (split_on "=" y)) ib = false) ->
  scan ib (pre ++ lines) = scan ib lines.
Proof.
  induction pre as [|y pre IH]; intros H; [reflexivity|].
  cbn [app scan]. destruct (H y (or_introl eq_refl)) as [E1 E2]. rewrite E1, E2.
  apply IH. intros z Hz. apply H. now right.
Qed.

Lemma scan_multi_iff (ib : string) (lines : list string) :
  scan ib lines = SMulti <->
  exists pre x post, lines = pre ++ x :: post /\
    (forall y, In y pre -> Nat.ltb 2 (length (split_on "=" y)) = false /\
                           includes (hd "" (split_on "=" y)) ib = false) /\
    Nat.ltb 2 (length (split_on "=" x)) = true.
Proof.
  split.
  - induction lines as [|l ls IH]; cbn [scan]; [discriminate|].
    destruct (Nat.ltb 2 (length (split_on "=" l))) eqn:E1.
    + intros _. exists [], l, ls. split; [reflexivity|]. split; [intros y []|exact E1].
    + destruct (includes (hd "" (split_on "=" l)) ib) eqn:E2; [discriminate|].
      intros H. destruct (IH H) as [pre [x [post [-> [Hpre Hx]]]]].
      exists (l :: pre), x, post. split; [reflexivity|]. split; [|exact Hx].
      intros y [<-|Hy]; [now split|exact (Hpre y Hy)].
  - intros [pre [x [post [-> [Hpre Hx]]]]]. rewrite (scan_skip ib pre _ Hpre).
    cbn [scan]. now rewrite Hx.
Qed.

Ltac case_is_file := match goal with |- context [is_file ?a ?b] => destruct (is_file a b) end.



(** ** Helper lemmas of the further properties *)

(** *** Objects and lists *)

Lemma get_app_obj {V} (o1 o2 : obj V) k :
  get (o1 ++ o2) k = match get o1 k with Some v => Some v | None => get o2 k end.
Proof.
  induction o1 as [|[k' v'] o1 IH]; cbn [app get]; [reflexivity|].
  destruct (String.eqb k k'); [reflexivity|exact IH].
Qed.

Lemma get_notin {V} (o : obj V) k : ~ In k (map fst o) -> get o k = None.
Proof.
  induction o as [|[k' v'] o IH]; intros Hn; cbn [get]; [reflexivity|].
  destruct (String.eqb_spec k k') as [->|Hne]; [exfalso; apply Hn; left; reflexivity|].
  apply IH. intros Hin. apply Hn. right. exact Hin.
Qed.

Lemma get_rev_nodup {V} (o : obj V) k : NoDup (map fst o) -> get (rev o) k = get o k.
Proof.
  induction o as [|[k' v'] o IH]; intros Hnd; [reflexivity|].
  inversion Hnd as [|x l Hx Hnd']; subst.
  cbn [rev get]. rewrite get_app_obj, IH by exact Hnd'. cbn [get].
  destruct (String.eqb_spec k k') as [->|Hne].
  - rewrite get_notin by exact Hx. reflexivity.
  - destruct (get o k); reflexivity.
Qed.

(** [Object.assign]: the last binding of a key in the source wins over the target. *)
Lemma get_assign {V} (t src : obj V) k :
  get (assign t src) k = match get (rev src) k with Some v => Some v | None => get t k end.
Proof.
  unfold assign. revert t. induction src as [|[k' v'] src IH]; intros t; [reflexivity|].
  cbn [fold_left rev]. rewrite IH, get_app_obj, get_put. cbn [get].
  destruct (get (rev src) k); [reflexivity|].
  destruct (String.eqb k k'); reflexivity.
Qed.

Lemma find_app_l {A} (f : A -> bool) (l1 l2 : list A) :
  find f (l1 ++ l2) = match find f l1 with Some x => Some x | None => find f l2 end.
Proof.
  induction l1 as [|a l1 IH]; cbn [app find]; [reflexivity|].
  destruct (f a); [reflexivity|exact IH].
Qed.

(** A run of [Object.assign] over a list of tables: the last table with the key wins. *)
Lemma get_fold_assign {V} (T : string -> obj V) (l : list string) (t : obj V) k :
  (forall dep, NoDup (map fst (T dep))) ->
  get (fold_left (fun acc dep => assign acc (T dep)) l t) k =
  match find (fun dep => has (T dep) k) (rev l) with Some dep => get (T dep) k | None => get t k end.
Proof.
  intros HT. revert t. induction l as [|dep l IH]; intros t; [reflexivity|].
  cbn [fold_left rev]. rewrite IH, find_app_l. cbn [find].
  rewrite get_assign, get_rev_nodup by apply HT.
  destruct (find (fun dep0 => has (T dep0) k) (rev l)); [reflexivity|].
  unfold has. destruct (get (T dep) k) as [v|] eqn:E; [|reflexivity].
  change (Some v = get (T dep) k). symmetry. exact E.
Qed.

Lemma put_keys {V} (o : obj V) k v x : In x (map fst (put o k v)) -> x = k \/ In x (map fst o).
Proof.
  induction o as [|[k' v'] o IH]; cbn [put map fst].
  - intros [<-|[]]. left. reflexivity.
  - destruct (String.eqb_spec k k') as [->|Hne]; cbn [map fst].
    + intros [<-|H]; right; [left; reflexivity|right; exact H].
    + intros [<-|H]; [right; left; reflexivity|].
      destruct (IH H) as [->|H']; [left; reflexivity|right; right; exact H'].
Qed.

Lemma put_nodup {V} (o : obj V) k v : NoDup (map fst o) -> NoDup (map fst (put o k v)).
Proof.
  induction o as [|[k' v'] o IH]; intros Hnd; cbn [put map fst].
  - constructor; [intros []|constructor].
  - inversion Hnd as [|x l Hx Hnd']; subst.
    destruct (String.eqb_spec k k') as [->|Hne]; cbn [map fst].
    + constructor; assumption.
    + constructor; [|exact (IH Hnd')].
      intros Hin. destruct (put_keys o k v k' Hin) as [->|H]; [exact (Hne eq_refl)|exact (Hx H)].
Qed.

Lemma tab_put {V} (t : obj (obj V)) c o : tab_ok t -> NoDup (map fst o) -> tab_ok (put t c o).
Proof.
  intros Ht Ho c' o' Hg. rewrite get_put in Hg.
  destruct (String.eqb c' c); [injection Hg as <-; exact Ho|exact (Ht _ _ Hg)].
Qed.

Lemma tab_getd {V} (t : obj (obj V)) c : tab_ok t -> NoDup (map fst (getd [] t c)).
Proof.
  intros Ht. unfold getd. destruct (@get (list (string * V)) t c) as [o|] eqn:E.
  - exact (Ht c o E).
  - constructor.
Qed.

Lemma tab_upd {V} (t : obj (obj V)) c k v : tab_ok t -> tab_ok (upd_in t c k v).
Proof.
  intros Ht. unfold upd_in. apply tab_put; [exact Ht|]. apply put_nodup, tab_getd, Ht.
Qed.

(** *** The per-contract variable tables of the first pass *)

Lemma state_var_vars cn d v : vars_ok d -> vars_ok (state_var cn d v).
Proof.
  intros [H1 H2]. unfold state_var.
  destruct (decl_shape_of v), (vtype v); cbn;
    first [ split; [exact H1|exact H2]
          | split; [exact H1|apply tab_upd; exact H2]
          | split; [apply tab_upd; exact H1|exact H2] ].
Qed.

Lemma pass1_part_vars cn d p : vars_ok d -> vars_ok (pass1_part cn d p).
Proof.
  intros Hd. destruct p; cbn [pass1_part]; try exact Hd.
  apply fold_left_inv with (P := vars_ok); [|exact Hd]. intros; apply state_var_vars; assumption.
Qed.

Lemma reset_vars d c : vars_ok d -> vars_ok (reset_tables d c).
Proof.
  intros [H1 H2]. split; cbn; apply tab_put; auto; constructor.
Qed.

Lemma pass1_item_vars dg it : vars_ok (fst dg) -> vars_ok (fst (pass1_item dg it)).
Proof.
  destruct dg as [d g]. intros Hd. destruct it as [c|p|i]; cbn [pass1_item fst].
  - destruct (pass1_enter d g c) as [d1 g1] eqn:E. cbn [fst].
    assert (H1 : vars_ok d1).
    { unfold pass1_enter in E. injection E as <- _. apply (reset_vars _ (cname c)) in Hd.
      destruct Hd as [Ha Hb]. split; exact Ha || exact Hb. }
    apply fold_left_inv with (P := vars_ok); [|exact H1]. intros; apply pass1_part_vars; assumption.
  - apply pass1_part_vars. exact Hd.
  - exact Hd.
Qed.

Lemma pass1_file_vars dg u : vars_ok (fst dg) -> vars_ok (fst (pass1_file dg u)).
Proof.
  destruct dg as [d g]. intros Hd. unfold pass1_file.
  apply fold_left_inv with (P := fun dg => vars_ok (fst dg)); [intros; apply pass1_item_vars; assumption|].
  cbn [fst]. apply (reset_vars _ "0_global") in Hd. destruct Hd as [Ha Hb]. split; exact Ha || exact Hb.
Qed.

Lemma first_loop_vars read files : forall dg dg',
  first_loop read files dg = Some dg' -> vars_ok (fst dg) -> vars_ok (fst dg').
Proof.
  induction files as [|f fs IH]; intros dg dg' H Hd; cbn [first_loop] in H.
  - injection H as <-. exact Hd.
  - destruct (read f) as [t u| |]; [|exact (IH _ _ H Hd)|discriminate].
    apply (IH _ _ H). apply pass1_file_vars. destruct dg as [d g]. exact Hd.
Qed.

Lemma init_vars : vars_ok init_decls.
Proof. split; intros c o H; discriminate. Qed.

(** The first pass never changes [content]; only the first loop sets it. *)
Lemma pass1_part_content (cn : string) (d : decls) (p : part) : content (pass1_part cn d p) = content d.
Proof.
  destruct p; try reflexivity. cbn [pass1_part].
  apply (fold_left_inv (fun a => content a = content d)); [|reflexivity].
  intros a v _ Ha. rewrite <- Ha. unfold state_var. destruct (decl_shape_of v), (vtype v); reflexivity.
Qed.

Lemma pass1_file_content (dg : decls * graph) (u : source_unit) :
  content (fst (pass1_file dg u)) = content (fst dg).
Proof.
  destruct dg as [d g]. unfold pass1_file.
  apply (fold_left_inv (fun dg => content (fst dg) = content d)); [|reflexivity].
  intros [a ga] it _ Ha. cbn [fst] in Ha. destruct it as [c|p|i].
  - cbn [pass1_item pass1_enter fst].
    apply (fold_left_inv (fun a => content a = content d)); [|exact Ha].
    intros a' p _ Ha'. rewrite pass1_part_content. exact Ha'.
  - cbn [pass1_item fst]. rewrite pass1_part_content. exact Ha.
  - exact Ha.
Qed.

Lemma first_loop_content read files : forall dg dg',
  first_loop read files dg = Some dg' ->
  content (fst dg') = fold_left (fun c f => match read f with RSource t _ => t | _ => c end) files (content (fst dg)).
Proof.
  induction files as [|f fs IH]; intros dg dg' H; cbn [first_loop] in H.
  - injection H as <-. reflexivity.
  - cbn [fold_left]. destruct (read f) as [t u| |]; [|exact (IH _ _ H)|discriminate].
    rewrite (IH _ _ H), pass1_file_content. destruct dg as [d g]. reflexivity.
Qed.

(** *** Graph updates *)

Lemma memb_sadd (l : list string) x n : memb n (sadd l x) = memb n l || String.eqb n x.
Proof.
  unfold sadd. destruct (memb x l) eqn:E.
  - destruct (String.eqb_spec n x) as [->|_]; [rewrite E; reflexivity|rewrite orb_false_r; reflexivity].
  - unfold memb. rewrite existsb_app. cbn [existsb]. rewrite orb_false_r. reflexivity.
Qed.

Lemma getNode_addEdge g a b col n :
  getNode (addEdge g a b col) n = getNode g n || String.eqb n a || String.eqb n b.
Proof. unfold getNode, addEdge. cbn [topNodes]. rewrite !memb_sadd. reflexivity. Qed.

Lemma grows_refl g : grows g g.
Proof. split; [reflexivity|split; [reflexivity|split; [reflexivity|exists []; rewrite app_nil_r; reflexivity]]]. Qed.

Lemma grows_trans g1 g2 g3 : grows g1 g2 -> grows g2 g3 -> grows g1 g3.
Proof.
  intros [C1 [T1 [E1 [t1 N1]]]] [C2 [T2 [E2 [t2 N2]]]].
  split; [congruence|split; [congruence|split; [congruence|]]].
  exists (t1 ++ t2). rewrite N2, N1, app_assoc. reflexivity.
Qed.

Lemma grows_addNode g c n : grows g (addNode g c n).
Proof.
  unfold addNode. destruct (existsb (pair_eqb (c, n)) (nodes g)); [apply grows_refl|].
  split; [reflexivity|split; [reflexivity|split; [reflexivity|exists [(c, n)]; reflexivity]]].
Qed.

(** [top_ok] only looks at the digraph's nodes and the edges. *)
Lemma top_same g g' : topNodes g' = topNodes g -> edges g' = edges g -> top_ok g -> top_ok g'.
Proof. intros T E Hg n. unfold getNode. rewrite T, E. apply Hg. Qed.

(** Appending one edge and adding its endpoints to the digraph keeps [top_ok]. *)
Lemma top_step g g' a b col :
  topNodes g' = sadd (sadd (topNodes g) a) b -> edges g' = edges g ++ [(a, b, col)] ->
  top_ok g -> top_ok g'.
Proof.
  intros T E Hg n. unfold getNode. rewrite T, !memb_sadd, E. fold (getNode g n).
  split.
  - intros H. apply orb_true_iff in H. destruct H as [H|H].
    + apply orb_true_iff in H. destruct H as [H|H].
      * apply Hg in H. destruct H as [a' [b' [c' [Hin Hn]]]].
        exists a', b', c'. split; [apply in_or_app; left; exact Hin|exact Hn].
      * apply String.eqb_eq in H. exists a, b, col. split; [apply in_or_app; right; left; reflexivity|left; exact H].
    + apply String.eqb_eq in H. exists a, b, col. split; [apply in_or_app; right; left; reflexivity|right; exact H].
  - intros [a' [b' [c' [Hin Hn]]]]. apply in_app_or in Hin. destruct Hin as [Hin|[Heq|[]]].
    + assert (Hn' : getNode g n = true) by (apply Hg; exists a', b', c'; split; assumption).
      rewrite Hn'. reflexivity.
    + injection Heq as <- <- <-. destruct Hn as [E1|E1]; subst n; rewrite String.eqb_refl, ?orb_true_r; reflexivity.
Qed.

Lemma top_grows g g' : grows g g' -> top_ok g -> top_ok g'.
Proof. intros [_ [T [E _]]]. apply top_same; assumption. Qed.

Lemma top_addEdge g a b col : top_ok g -> top_ok (addEdge g a b col).
Proof. apply (top_step g _ a b col); reflexivity. Qed.

(** What one [FunctionCall] does to the graph: clusters and cluster nodes are
    appended; either nothing else changes, or one edge is appended and its
    endpoints are added to the digraph. *)
Lemma on_call_spec d deps opts st g callee args g' :
  on_call d deps opts st g callee args = Some g' ->
  (exists t, clusters g' = clusters g ++ t) /\ (exists t, nodes g' = nodes g ++ t) /\
  ((edges g' = edges g /\ topNodes g' = topNodes g) \/
   exists s b col, callingScope st = Some s /\ edges g' = edges g ++ [(s, b, col)] /\
                   topNodes g' = sadd (sadd (topNodes g) s) b).
Proof.
  unfold on_call. destruct (callingScope st) as [s|].
  2:{ intros [= <-]. split; [exists []|split; [exists []|left; split]]; rewrite ?app_nil_r; reflexivity. }
  cbv zeta.
  match goal with |- obind ?T _ = _ -> _ => destruct T as [[[[lcn name] col]|]|] end;
    cbn [obind];
    [|intros [= <-]; split; [exists []|split; [exists []|left; split]]; rewrite ?app_nil_r; reflexivity
     |discriminate].
  intros [= <-].
  set (g1 := if getCluster g lcn then g else addCluster g lcn).
  set (n := nodeName deps g1 name lcn).
  assert (C1 : exists t, clusters g1 = clusters g ++ t).
  { unfold g1. destruct (getCluster g lcn); [exists []; rewrite app_nil_r; reflexivity|exists [lcn]; reflexivity]. }
  assert (G1 : grows g1 (if getNode g1 n then g1 else addNode g1 lcn n))
    by (destruct (getNode g1 n); [apply grows_refl|apply grows_addNode]).
  destruct G1 as [C2 [T2 [E2 [t2 N2]]]].
  assert (N1 : nodes g1 = nodes g) by (unfold g1; destruct (getCluster g lcn); reflexivity).
  assert (E1 : edges g1 = edges g) by (unfold g1; destruct (getCluster g lcn); reflexivity).
  assert (T1 : topNodes g1 = topNodes g) by (unfold g1; destruct (getCluster g lcn); reflexivity).
  cbn [addEdge clusters nodes edges topNodes].
  rewrite C2, E2, E1, T2, T1, N2, N1. split; [exact C1|split; [exists t2; reflexivity|]].
  right. exists s, n, col. split; [reflexivity|split; reflexivity].
Qed.

Lemma top_on_call d deps opts st g callee args g' :
  on_call d deps opts st g callee args = Some g' -> top_ok g -> top_ok g'.
Proof.
  intros H. destruct (on_call_spec _ _ _ _ _ _ _ _ H) as [_ [_ [[E T]|[s [b [col [_ [E T]]]]]]]].
  - apply top_same; assumption.
  - apply (top_step g g' s b col); assumption.
Qed.

Lemma on_event_ok d deps opts sg ev : sg_ok sg -> sg_ok (on_event d deps opts sg ev).
Proof.
  destruct sg as [[st g]|]; [|intros _; exact I]. intros Hg. cbn [on_event obind].
  destruct ev as [v|callee args|n]; cbn [sg_ok].
  - exact Hg.
  - destruct (on_call d deps opts st g callee args) as [g'|] eqn:E; cbn; [|exact I].
    exact (top_on_call _ _ _ _ _ _ _ _ E Hg).
  - destruct (callingScope st); [destruct (enableModifierEdges opts)|]; cbn [sg_ok];
      [apply top_addEdge|..]; exact Hg.
Qed.

Lemma on_events_ok d deps opts evs sg : sg_ok sg -> sg_ok (fold_left (on_event d deps opts) evs sg).
Proof. apply fold_left_inv. intros; apply on_event_ok; assumption. Qed.

Lemma on_part_ok d deps opts sg p : sg_ok sg -> sg_ok (on_part d deps opts sg p).
Proof.
  destruct sg as [[st g]|]; [|intros _; exact I]. intros Hg. cbn [on_part obind].
  destruct p; try exact Hg.
  - match goal with |- sg_ok (obind (fold_left ?f ?l ?s) _) =>
      pose proof (on_events_ok d deps opts l s Hg) as H; destruct (fold_left f l s) as [[st2 g2]|] end;
    exact H.
  - match goal with |- sg_ok (obind (fold_left ?f ?l ?s) _) =>
      pose proof (on_events_ok d deps opts l s Hg) as H; destruct (fold_left f l s) as [[st2 g2]|] end;
    exact H.
Qed.

Lemma on_item_ok d deps opts sg it : sg_ok sg -> sg_ok (on_item d deps opts sg it).
Proof.
  intros Hg. destruct it as [c|p|i]; cbn [on_item].
  - destruct sg as [[st g]|]; [|exact I]. cbn [obind].
    assert (H : sg_ok (fold_left (on_part d deps opts) (subNodes c) (Some (enter_contract d deps st (cname c), g)))).
    { apply fold_left_inv; [intros; apply on_part_ok; assumption|exact Hg]. }
    destruct (fold_left (on_part d deps opts) (subNodes c) (Some (enter_contract d deps st (cname c), g))) as [[st2 g2]|];
      exact H.
  - apply on_part_ok; assumption.
  - exact Hg.
Qed.

Lemma resolve_file_ok d deps opts g u g' :
  resolve_file d deps opts g u = Some g' -> top_ok g -> top_ok g'.
Proof.
  intros H Hg. unfold resolve_file in H.
  assert (Hf : sg_ok (fold_left (on_item d deps opts) u (Some (init_scope, g)))).
  { apply fold_left_inv; [intros; apply on_item_ok; assumption|exact Hg]. }
  destruct (fold_left (on_item d deps opts) u (Some (init_scope, g))) as [[st2 g2]|]; [|discriminate].
  injection H as <-. exact Hf.
Qed.


Lemma memb_sadd_keep (l : list string) x n : memb n l = true -> memb n (sadd l x) = true.
Proof. intros H. rewrite memb_sadd, H. reflexivity. Qed.






(** *** Registration *)

Lemma reg_parts_none deps (ps : list part) : fold_left (reg_part deps) ps None = None.
Proof. induction ps as [|p ps IH]; [reflexivity|exact IH]. Qed.

Lemma reg_items_none deps (u : source_unit) : fold_left (reg_item deps) u None = None.
Proof. induction u as [|it u IH]; [reflexivity|exact IH]. Qed.

Lemma reg_parts_grows deps ps : forall cn cl g cn' cl' g',
  fold_left (reg_part deps) ps (Some (cn, cl, g)) = Some (cn', cl', g') ->
  cn' = cn /\ cl' = cl /\ grows g g'.
Proof.
  induction ps as [|p ps IH]; intros cn cl g cn' cl' g' H; cbn [fold_left] in H.
  - injection H as <- <- <-. split; [reflexivity|split; [reflexivity|apply grows_refl]].
  - destruct p; cbn [reg_part] in H; try exact (IH _ _ _ _ _ _ H).
    + destruct cl as [c|]; [|exact (IH _ _ _ _ _ _ H)].
      destruct (IH _ _ _ _ _ _ H) as [-> [-> Hg]].
      split; [reflexivity|split; [reflexivity|eapply grows_trans; [apply grows_addNode|exact Hg]]].
    + destruct cl as [c|]; [|rewrite reg_parts_none in H; discriminate].
      destruct (IH _ _ _ _ _ _ H) as [-> [-> Hg]].
      split; [reflexivity|split; [reflexivity|eapply grows_trans; [apply grows_addNode|exact Hg]]].
Qed.

Lemma reg_items_grows deps u : forall cn cl g cn' cl' g',
  fold_left (reg_item deps) u (Some (cn, cl, g)) = Some (cn', cl', g') -> grows g g'.
Proof.
  induction u as [|it u IH]; intros cn cl g cn' cl' g' H; cbn [fold_left] in H.
  - injection H as _ _ <-. apply grows_refl.
  - destruct it as [c|p|i]; cbn [reg_item] in H.
    + match type of H with context [fold_left (reg_part deps) ?ps ?s0] =>
        destruct (fold_left (reg_part deps) ps s0) as [[[cn1 cl1] g1]|] eqn:E end.
      * destruct (reg_parts_grows _ _ _ _ _ _ _ _ E) as [_ [_ Hg]].
        eapply grows_trans; [exact Hg|exact (IH _ _ _ _ _ _ H)].
      * rewrite reg_items_none in H. discriminate.
    + destruct (reg_part deps (Some (cn, cl, g)) p) as [[[cn1 cl1] g1]|] eqn:E.
      * assert (E' : fold_left (reg_part deps) [p] (Some (cn, cl, g)) = Some (cn1, cl1, g1)) by exact E.
        destruct (reg_parts_grows _ _ _ _ _ _ _ _ E') as [_ [_ Hg]].
        eapply grows_trans; [exact Hg|exact (IH _ _ _ _ _ _ H)].
      * rewrite reg_items_none in H. discriminate.
    + exact (IH _ _ _ _ _ _ H).
Qed.

Lemma register_file_grows deps g u g' : register_file deps g u = Some g' -> grows g g'.
Proof.
  unfold register_file.
  destruct (fold_left (reg_item deps) u (Some ("0_global", None, g))) as [[[cn cl] g1]|] eqn:E; [|discriminate].
  intros [= <-]. exact (reg_items_grows _ _ _ _ _ _ _ _ E).
Qed.

(** Inside a contract with a cluster, the registration of its members cannot fail. *)
Lemma reg_parts_some deps ps : forall cn c g,
  exists g', fold_left (reg_part deps) ps (Some (cn, Some c, g)) = Some (cn, Some c, g').
Proof.
  induction ps as [|p ps IH]; intros cn c g; [exists g; reflexivity|].
  cbn [fold_left]. destruct p; cbn [reg_part]; apply IH.
Qed.

(** *** Whole runs *)

Lemma second_loop_ok d deps opts g g' :
  second_loop d deps opts g = Some g' -> top_ok g -> top_ok g'.
Proof.
  intros H Hg. unfold second_loop in H.
  set (P := fun og : option graph => match og with Some g => top_ok g | None => True end).
  assert (HP : P (fold_left (fun og u => obind og (fun g0 => obind (register_file deps g0 u)
                                               (fun g1 => resolve_file d deps opts g1 u)))
            (fileASTs d) (Some g))).
  { apply fold_left_inv; [|exact Hg]. intros [g0|] u _ H0; [|exact I]. cbn [obind].
    destruct (register_file deps g0 u) as [g1|] eqn:E1; [|exact I]. cbn [obind].
    destruct (resolve_file d deps opts g1 u) as [g2|] eqn:E2; [|exact I].
    exact (resolve_file_ok _ _ _ _ _ _ E2 (top_grows _ _ (register_file_grows _ _ _ _ E1) H0)). }
  rewrite H in HP. exact HP.
Qed.

(** The first loop only adds clusters. *)
Lemma pass1_file_graph dg u :
  edges (snd (pass1_file dg u)) = edges (snd dg) /\ topNodes (snd (pass1_file dg u)) = topNodes (snd dg).
Proof.
  destruct dg as [d g]. unfold pass1_file.
  apply fold_left_inv with (P := fun dg => edges (snd dg) = edges g /\ topNodes (snd dg) = topNodes g);
    [|split; reflexivity].
  intros [d1 g1] it _ H1. destruct it as [c|p|i]; cbn [pass1_item].
  - unfold pass1_enter. cbn [snd]. destruct (getCluster g1 (cname c)); exact H1.
  - exact H1.
  - exact H1.
Qed.

Lemma first_loop_graph read files : forall dg dg',
  first_loop read files dg = Some dg' ->
  edges (snd dg') = edges (snd dg) /\ topNodes (snd dg') = topNodes (snd dg).
Proof.
  induction files as [|f fs IH]; intros dg dg' H; cbn [first_loop] in H.
  - injection H as <-. split; reflexivity.
  - destruct (read f) as [t u| |]; [|exact (IH _ _ H)|discriminate].
    destruct (IH _ _ H) as [E T]. destruct (pass1_file_graph (set_content dg t) u) as [E1 T1].
    destruct dg as [d g]. rewrite E, T, E1, T1. split; reflexivity.
Qed.

Lemma top_empty : top_ok empty_graph.
Proof. intros n. split; [discriminate|intros [a [b [c [[] _]]]]]. Qed.

(** *** The list of inputs *)

Lemma graph_run_cons e opts (files : list string) : files <> [] ->
  graph_run e opts files =
  obind (graph_files e opts files) (fun files' =>
  obind (first_loop (read_input e opts) files' (init_decls, empty_graph)) (fun '(d, g) =>
  obind (linearize (dependencies d)) (fun deps => second_loop d deps opts g))).
Proof. destruct files; [intros H; exfalso; apply H; reflexivity|reflexivity]. Qed.

Lemma first_loop_fail read files f : forall dg,
  In f files -> read f = RFail -> first_loop read files dg = None.
Proof.
  induction files as [|x l IH]; intros dg Hin Hf; [destruct Hin|]. cbn [first_loop].
  destruct Hin as [->|Hin]; [rewrite Hf; reflexivity|].
  destruct (read x); [apply IH|apply IH|reflexivity]; assumption.
Qed.

(** *** The import resolver *)

Lemma path_eqb_eq (p q : path) : path_eqb p q = true <-> p = q.
Proof.
  revert q. induction p as [|a p IH]; intros [|b q]; cbn [path_eqb]; try (split; congruence).
  rewrite andb_true_iff, String.eqb_eq, IH. split; [intros [-> ->]; reflexivity|intros [= -> ->]; auto].
Qed.

Lemma removelast_prefix {A} (p : list A) : exists t, p = removelast p ++ t.
Proof.
  destruct p as [|a p]; [exists []; reflexivity|].
  exists [last (a :: p) a]. apply app_removelast_last. discriminate.
Qed.

Lemma walk_spec (fs : fsys) (topLen fuel : nat) : forall (cur : path) (arr : list string) D nm fr,
  walk fs topLen fuel cur arr = Ok (D, nm, fr) ->
  (exists t, cur = D ++ t) /\ nm = memb "node_modules" (readdir fs D) /\
  fr = memb "remappings.txt" (readdir fs D) /\ (nm || fr) = true.
Proof.
  induction fuel as [|f IH]; intros cur arr D nm fr H; cbn [walk] in H; [discriminate|].
  destruct (Nat.ltb (length arr) topLen); [discriminate|].
  destruct (memb "node_modules" (readdir fs cur) || memb "remappings.txt" (readdir fs cur)) eqn:E.
  - injection H as <- <- <-. split; [exists []; rewrite app_nil_r; reflexivity|].
    split; [reflexivity|split; [reflexivity|exact E]].
  - destruct (IH _ _ _ _ _ H) as [[t Ht] Hrest]. split; [|exact Hrest].
    destruct (removelast_prefix cur) as [t' Ht']. exists (t ++ t').
    rewrite Ht' at 1. rewrite Ht, app_assoc. reflexivity.
Qed.

Lemma check_file_ok (fs : fsys) (r : res path) (p : path) :
  match r with Err e => Err e | Ok q => if is_file fs q then Ok q else Err ImportNotFile end = Ok p ->
  is_file fs p = true.
Proof.
  destruct r as [q|e]; [|discriminate].
  destruct (is_file fs q) eqn:E; [|discriminate]. intros [= <-]. exact E.
Qed.

Lemma resolveImportPath_file fs b ip pd p : resolveImportPath fs b ip pd = Ok p -> is_file fs p = true.
Proof. unfold resolveImportPath. cbv zeta. apply check_file_ok. Qed.

Lemma resolve_all_spec fs file pd imp ps : forall new,
  resolve_all fs file pd imp ps = Ok new -> forall p, In p new -> is_file fs p = true /\ ~ In p imp.
Proof.
  induction ps as [|q ps IH]; intros new H p Hp; cbn [resolve_all] in H.
  - injection H as <-. destruct Hp.
  - destruct (resolveImportPath fs file q pd) as [nf|e] eqn:E1; [|discriminate].
    destruct (resolve_all fs file pd imp ps) as [rest|e] eqn:E2; [|discriminate].
    injection H as <-.
    destruct (existsb (path_eqb nf) imp) eqn:E3.
    + exact (IH rest eq_refl p Hp).
    + destruct Hp as [<-|Hp]; [|exact (IH rest eq_refl p Hp)].
      split; [exact (resolveImportPath_file _ _ _ _ _ E1)|].
      intros Hin. assert (existsb (path_eqb nf) imp = true) as E4.
      { apply existsb_exists. exists nf. split; [exact Hin|apply path_eqb_eq; reflexivity]. }
      congruence.
Qed.

Lemma nodup_snoc {A} (l : list A) x : NoDup l -> ~ In x l -> NoDup (l ++ [x]).
Proof.
  induction l as [|a l IH]; intros Hnd Hx; cbn [app].
  - constructor; [intros []|constructor].
  - inversion Hnd as [|y m Ha Hnd']; subst. constructor.
    + intros Hin. apply in_app_or in Hin. destruct Hin as [Hin|[<-|[]]]; [exact (Ha Hin)|].
      apply Hx. left. reflexivity.
    + apply IH; [exact Hnd'|]. intros Hin. apply Hx. right. exact Hin.
Qed.

Lemma importProfiler_inv (fuel : nat) (fs : fsys) (pd : path) : forall files imp out,
  importProfiler fuel fs pd files imp = Ok out ->
  imported_ok fs pd imp -> imported_ok fs pd out /\ exists t, out = imp ++ t.
Proof.
  induction fuel as [|f IHf]; intros files imp out H Hok; [discriminate|].
  cbn [importProfiler] in H. revert imp H Hok.
  induction files as [|file rest IH]; intros imp H Hok.
  - injection H as <-. split; [exact Hok|exists []; rewrite app_nil_r; reflexivity].
  - cbv beta iota fix zeta in H.
    set (file' := resolve pd file) in H.
    destruct (negb (prefix (path_str pd) (path_str file')) || negb (ends_with (path_str file') ".sol")) eqn:Ev;
      [discriminate|].
    destruct (read_source fs file') as [tx u| |] eqn:Er.
    3: discriminate.
    2: { injection H as <-. split; [exact Hok|exists []; rewrite app_nil_r; reflexivity]. }
    set (imp1 := if existsb (path_eqb file') imp then imp else imp ++ [file']) in H.
    assert (Hok1 : imported_ok fs pd imp1 /\ exists t, imp1 = imp ++ t).
    { unfold imp1. destruct (existsb (path_eqb file') imp) eqn:Ex.
      - split; [exact Hok|exists []; rewrite app_nil_r; reflexivity].
      - split; [|exists [file']; reflexivity].
        destruct Hok as [Hnd Hall]. split.
        + apply nodup_snoc; [exact Hnd|]. intros Hin.
          assert (existsb (path_eqb file') imp = true) as E4.
          { apply existsb_exists. exists file'. split; [exact Hin|apply path_eqb_eq; reflexivity]. }
          congruence.
        + intros p Hp. apply in_app_or in Hp. destruct Hp as [Hp|[<-|[]]]; [exact (Hall p Hp)|].
          apply orb_false_iff in Ev. destruct Ev as [E1 E2].
          apply negb_false_iff in E1, E2. unfold valid_import. rewrite E1, E2.
          split; [reflexivity|exists tx, u; exact Er]. }
    destruct Hok1 as [Hok1 [t1 Ht1]].
    destruct (resolve_all fs file' pd imp1 (imports_of u)) as [newFiles|e]; [|discriminate].
    destruct (importProfiler f fs pd (map path_str newFiles) imp1) as [imp2|e] eqn:Ei; [|discriminate].
    destruct (IHf _ _ _ Ei Hok1) as [Hok2 [t2 Ht2]].
    destruct (IH imp2 H Hok2) as [Hok3 [t3 Ht3]].
    split; [exact Hok3|]. exists (t1 ++ t2 ++ t3). rewrite Ht3, Ht2, Ht1, !app_assoc. reflexivity.
Qed.

(** ** Claims *)

(** C1 (code_bug). In [Token], the call [a.add(b)] on the local [uint256 a],
    with [using SafeMath for uint256], is not retargeted at [SafeMath.add]:
    the edge goes to the node [a.add] of a new cluster [a]. *)
Theorem C1_using_for_call_not_retargeted :
  graph_run (src_env [("Token.sol", safemath_text, safemath_sol)]) no_options ["Token.sol"] =
  Some (mkGraph ["SafeMath"; "Token"; "a"]
                [("SafeMath", "SafeMath.add"); ("Token", "Token.f"); ("a", "a.add")]
                ["Token.f"; "a.add"]
                [("Token.f", "a.add", CDefault)]).
Proof. vm_compute. reflexivity. Qed.

(** C2 (counterexample). [super.f()] in [C.f], where [C is A] and both declare
    [f], gives the edge [C.f -> C.f]: the search does not skip [C]. In the
    example of the claim ([C] does not declare [f]) the edge does go to [B.f]. *)
Lemma C2_super_call_targets_self :
  graph_run (src_env [("S.sol", self_text, self_sol)]) no_options ["S.sol"] =
  Some (mkGraph ["A"; "C"] [("A", "A.f"); ("C", "C.f")] ["C.f"] [("C.f", "C.f", CDefault)]) /\
  graph_run (src_env [("S.sol", super_text, super_sol)]) no_options ["S.sol"] =
  Some (mkGraph ["A"; "B"; "C"] [("A", "A.f"); ("B", "B.f"); ("C", "C.g")] ["C.g"; "B.f"]
                [("C.g", "B.f", CDefault)]).
Proof. vm_compute. split; reflexivity. Qed.

(** C2 (code_bug). A call [super.m(...)] in a method of contract [C] (with
    the using-for tables holding no entry that could apply) searches the whole
    linearization of [C], [C] itself first, for a contract [P] declaring [m]; with
    none there is no edge, otherwise the edge goes from the caller to the node
    name [nodeName] computes for [m] in [P]. So when [C] declares [m] itself, the
    call targets [C]'s own node. *)
Theorem C2_super_call_searches_from_self
  (d : decls) (deps : obj (list string)) (opts : options) (st : scope) (g : graph)
  (s C m : string) (ancestors : list string) (args : list (expr * range))
  (Hscope : callingScope st = Some s)
  (Hcn : contractName st = C)
  (Hdeps : get deps C = Some (C :: ancestors))
  (Hset : has (functionsPerContract d) "[object Set]" = false) :
  on_call d deps opts st g (EMember (EIdent "super") m) args =
  Some (match find (declares (functionsPerContract d) m) (C :: ancestors) with
        | None => g
        | Some P =>
            let g1 := if getCluster g P then g else addCluster g P in
            let lnn := nodeName deps g1 m P in
            addEdge (if getNode g1 lnn then g1 else addNode g1 P lnn) s lnn CDefault
        end).
Proof.
  unfold on_call. rewrite Hscope. cbn [isRegularFunctionCall].
  unfold member_target, member_object. cbn [obind].
  rewrite (using_for_keeps d opts _ m _ Hset). cbn -[find].
  unfold super_target. rewrite Hcn, Hdeps. cbn [obind].
  destruct (find (declares (functionsPerContract d) m) (C :: ancestors)); reflexivity.
Qed.

Lemma C2_witness :
  on_call (decls_of [self_sol]) (deps_of [self_sol]) no_options
          (scope_in [self_sol] "C" "C.f") (registered [self_sol])
          (EMember (EIdent "super") "f") [] =
  Some (mkGraph ["A"; "C"] [("A", "A.f"); ("C", "C.f")] ["C.f"] [("C.f", "C.f", CDefault)]).
Proof.
  rewrite (C2_super_call_searches_from_self (decls_of [self_sol]) (deps_of [self_sol]) no_options
             (scope_in [self_sol] "C" "C.f") (registered [self_sol]) "C.f" "C" "f" ["A"; "0_global"] []);
    vm_compute; reflexivity.
Defined.

(** C3 (code_bug). For [contract B { function foo() }] and
    [contract C is B { function g() { foo(); } }] the call [foo()] targets a new
    node [C.foo] in cluster [C], not [B.foo]: [nodeName] asks [digraph.getNode],
    which does not see [B.foo], a node of the cluster [B] only. *)
Theorem C3_plain_call_gets_new_node :
  graph_run (src_env [("S.sol", bc_text, bc_sol)]) no_options ["S.sol"] =
  Some (mkGraph ["B"; "C"] [("B", "B.foo"); ("C", "C.g"); ("C", "C.foo")] ["C.g"; "C.foo"]
                [("C.g", "C.foo", CRegular)]).
Proof. vm_compute. reflexivity. Qed.

(** C4. Modelled from the spec (the linearizer is the external package
    [c3-linearization]). For every contract [c] collected by the first loop
    (over files none of whose contracts is named [0_global] or lists it as a
    base), the linearization exists, starts with [c], ends with the pseudo-root
    [0_global] and has it nowhere else, and every direct base of [c] comes before
    the root. For [C is A, B] with [A] and [B] having no bases, whose own
    linearizations are [[A; 0_global]] and [[B; 0_global]], this is the
    consistency of [C]'s order with them. *)
Theorem C4_linearization_self_first_root_last (read : string -> readres) (files : list string)
  (d : decls) (g : graph) (deps : obj (list string)) (c : string)
  (Hsrc : forall f t u, read f = RSource t u -> names_ok u)
  (Hrun : first_loop read files (init_decls, empty_graph) = Some (d, g))
  (Hlin : linearize (dependencies d) = Some deps)
  (Hc : In c (contractNames d)) (Hcz : c <> "0_global") :
  exists l, get deps c = Some l /\ hd_error l = Some c /\
    exists l', l = l' ++ ["0_global"] /\ ~ In "0_global" l' /\
      forall b, In b (getd [] (dependencies d) c) -> b <> "0_global" -> In b l'.
Proof.
  destruct (first_loop_ok read files _ _ Hsrc Hrun init_deps_ok) as [Hs Hn].
  cbn [fst] in Hs, Hn.
  destruct (Hn c Hc) as [E|Hhas]; [contradiction|].
  destruct (linearize_has _ _ _ Hlin Hhas) as [l Hl].
  exists l. split; [exact Hl|].
  destruct (lin_shape (dependencies d) Hs _ c l (linearize_get _ _ _ _ Hlin Hl))
    as [Hhd [_ [Hz Hb]]].
  split; [exact Hhd|].
  assert (Hget : get (dependencies d) c <> None)
    by (unfold has in Hhas; destruct (get (dependencies d) c); congruence).
  destruct (Hz Hget) as [l' [-> Hl']]. exists l'. split; [reflexivity|]. split; [exact Hl'|].
  intros b Hbin Hbz. specialize (Hb b Hbin). apply in_app_or in Hb.
  destruct Hb as [Hb|[E|[]]]; [exact Hb|congruence].
Qed.

Lemma C4_witness :
  exists l, get (deps_of [abc_sol]) "C" = Some l /\ hd_error l = Some "C" /\
    exists l', l = l' ++ ["0_global"] /\ ~ In "0_global" l' /\
      forall b, In b (getd [] (dependencies (fst (pass1_file (set_content (init_decls, empty_graph) abc_text) abc_sol))) "C") -> b <> "0_global" -> In b l'.
Proof.
  apply (C4_linearization_self_first_root_last (read_from [("abc.sol", abc_text, abc_sol)]) ["abc.sol"]
           (fst (pass1_file (set_content (init_decls, empty_graph) abc_text) abc_sol))
           (snd (pass1_file (set_content (init_decls, empty_graph) abc_text) abc_sol))
           (deps_of [abc_sol]) "C").
  - intros f t u Hr k Hk. unfold read_from in Hr. cbn [find] in Hr.
    destruct (String.eqb "abc.sol" f); [|discriminate]. injection Hr as _ <-.
    simpl in Hk. destruct Hk as [E|[E|[E|[]]]]; injection E as <-;
      (split; [discriminate|simpl; intuition discriminate]).
  - vm_compute. reflexivity.
  - vm_compute. reflexivity.
  - apply memb_In. vm_compute. reflexivity.
  - discriminate.
Defined.

(** C5 (code_bug). A node can be added to two clusters: with the files
    [contract A { function f() public {} function h() public { f(); } }] and
    [contract B is A { function f() public {} }], the call in [A.h] makes [A.f]
    a node of the digraph, so the registration of [B]'s [f] computes the merged
    name [A.f] and adds it to cluster [B] as well. *)
Theorem C5_merged_node_in_two_clusters :
  graph_run (src_env [("A.sol", a5_text, a5_sol); ("B.sol", b5_text, b5_sol)]) no_options
            ["A.sol"; "B.sol"] =
  Some (mkGraph ["A"; "B"] [("A", "A.f"); ("A", "A.h"); ("B", "A.f")] ["A.h"; "A.f"]
                [("A.h", "A.f", CRegular)]).
Proof. vm_compute. reflexivity. Qed.




(** C7 (counterexample). A line with two [=] after the line that matches the
    import base is never read: the import resolves. *)
Lemma C7_late_multi_line_ignored :
  resolveImportPath (proj_fs ("@oz/=lib/openzeppelin/" ++ newline ++ "a=b=c"))
                    ["proj"; "src"; "Token.sol"] "@oz/token/ERC20.sol" ["proj"] =
  Ok ["proj"; "lib"; "openzeppelin"; "token"; "ERC20.sol"].
Proof. vm_compute. reflexivity. Qed.

(** C7 (amended). For an import that is neither relative nor absolute, once the
    walk has found a manifest, resolution fails with the multiple-assignment
    error exactly when the manifest has a line with more than one [=] preceded
    only by lines with at most one [=] whose prefix does not contain the
    import's first path segment. *)
Theorem C7_multiple_assignment_iff (fs : fsys) (base : path) (ip : string) (projectDir D : path)
  (nm : bool)
  (Hrel : String.eqb (substring 0 1 ip) "." || String.eqb (substring 0 1 ip) "/" = false)
  (Hwalk : walk_from fs base projectDir = Ok (D, nm, true)) :
  resolveImportPath fs base ip projectDir = Err MultipleAssignment <->
  exists pre x post, split_lines (read_text fs (D ++ ["remappings.txt"])) = pre ++ x :: post /\
    (forall y, In y pre -> Nat.ltb 2 (length (split_on "=" y)) = false /\
                           includes (hd "" (split_on "=" y)) (hd "" (split_on "/" ip)) = false) /\
    Nat.ltb 2 (length (split_on "=" x)) = true.
Proof.
  rewrite <- scan_multi_iff.
  unfold resolveImportPath. cbv beta zeta. rewrite Hrel, Hwalk. cbv beta iota.
  destruct (scan (hd "" (split_on "/" ip)) (split_lines (read_text fs (D ++ ["remappings.txt"]))))
    as [i o| |]; cbv beta iota.
  - split; [|discriminate]. destruct (String.eqb i ""); cbn [negb orb]; case_is_file; discriminate.
  - split; [|discriminate]. cbn [negb orb String.eqb]. case_is_file; discriminate.
  - split; reflexivity.
Qed.

Lemma C7_witness :
  resolveImportPath (proj_fs ("a=b=c" ++ newline ++ "@oz/=lib/openzeppelin/"))
                    ["proj"; "src"; "Token.sol"] "@oz/token/ERC20.sol" ["proj"] = Err MultipleAssignment.
Proof.
  apply (C7_multiple_assignment_iff (proj_fs ("a=b=c" ++ newline ++ "@oz/=lib/openzeppelin/"))
           ["proj"; "src"; "Token.sol"] "@oz/token/ERC20.sol" ["proj"] ["proj"] false).
  - vm_compute. reflexivity.
  - vm_compute. reflexivity.
  - exists [], "a=b=c", ["@oz/=lib/openzeppelin/"]. split; [vm_compute; reflexivity|].
    split; [intros y []|vm_compute; reflexivity].
Defined.

(** C8 (code_bug). The analysis loop skips a directory entry and goes on with
    the others (it runs as on the list without them), but with [importer] on the
    import-closure resolver returns at the first directory entry: for the inputs
    [dir.sol] (a directory of the project) and [src/A.sol], the resolver gives no
    file at all and the graph is empty, while with [importer] off the graph has
    the cluster [A] and its node [A.f]. *)
Theorem C8_directory_entry_ends_import_closure :
  (forall (read : string -> readres) (files : list string) (dg : decls * graph),
     first_loop read files dg =
     first_loop read (filter (fun x => match read x with RIsDir => false | _ => true end) files) dg) /\
  graph_files proj_env importer_options ["dir.sol"; "src/A.sol"] = Some [] /\
  graph_run proj_env importer_options ["dir.sol"; "src/A.sol"] = Some empty_graph /\
  graph_run proj_env no_options ["dir.sol"; "src/A.sol"] = Some (mkGraph ["A"] [("A", "A.f")] [] []).
Proof.
  split; [|vm_compute; split; [reflexivity|split; reflexivity]].
  intros read files. induction files as [|x xs IH]; intros dg; [reflexivity|].
  cbn [first_loop filter]. destruct (read x) eqn:E; cbn [first_loop]; rewrite ?E; auto.
Qed.

(** C9 (code_bug). The exit hook of a modifier clears the calling scope only:
    after [modifier m() { uint256 x; _; }] the local [x] is still in the table
    of elementary-typed locals, while after a function with the same body the
    table is empty. *)
Lemma C9_modifier_exit_keeps_locals :
  match on_part (decls_of [mod_sol]) (deps_of [mod_sol]) no_options
          (Some (enter_contract (decls_of [mod_sol]) (deps_of [mod_sol]) init_scope "M",
                 registered [mod_sol]))
          (PModifier (mkModifier "m" [local "x" "uint256"])) with
  | Some (st, _) => callingScope st = None /\ localVars st = [("x", Some "uint256")]
  | None => False
  end /\
  match on_part (decls_of [mod_sol]) (deps_of [mod_sol]) no_options
          (Some (enter_contract (decls_of [mod_sol]) (deps_of [mod_sol]) init_scope "M",
                 registered [mod_sol]))
          (fn "h" [local "x" "uint256"]) with
  | Some (st, _) => callingScope st = None /\ localVars st = []
  | None => False
  end.
Proof. vm_compute. split; split; reflexivity. Qed.




(** ** Further properties of the code *)

(** X1 [graph(files, options)]: the nodes of the digraph itself in the graph
    built are exactly the endpoints of its edges. Every other node belongs to a
    cluster only, so [digraph.getNode] (and [nodeName], which asks it) sees a
    node only once an edge has reached it. *)
Theorem graph_run_top_nodes_are_endpoints (e : env) (opts : options) (files : list string) (g : graph)
  (H : graph_run e opts files = Some g) :
  top_ok g.
Proof.
  destruct files as [|f fs]; [discriminate|]. rewrite graph_run_cons in H by discriminate.
  destruct (graph_files e opts (f :: fs)) as [files'|]; [|discriminate]. cbn [obind] in H.
  destruct (first_loop (read_input e opts) files' (init_decls, empty_graph)) as [[d g0]|] eqn:E1;
    [|discriminate].
  cbn [obind] in H. destruct (linearize (dependencies d)) as [deps|]; [|discriminate]. cbn [obind] in H.
  apply (second_loop_ok _ _ _ _ _ H).
  destruct (first_loop_graph _ _ _ _ E1) as [Ee Et]. cbn [snd] in Ee, Et.
  exact (top_same empty_graph g0 Et Ee top_empty).
Qed.

Lemma graph_run_top_nodes_are_endpoints_witness :
  let g := some_or empty_graph (graph_run (src_env [("free.sol", free_text, free_sol)]) no_options ["free.sol"]) in
  graph_run (src_env [("free.sol", free_text, free_sol)]) no_options ["free.sol"] = Some g /\ top_ok g.
Proof.
  intros g.
  assert (H : graph_run (src_env [("free.sol", free_text, free_sol)]) no_options ["free.sol"] = Some g)
    by (vm_compute; reflexivity).
  split; [exact H|exact (graph_run_top_nodes_are_endpoints _ _ _ _ H)].
Defined.

(** X2 The registration visitor (graph.js 238-295): when every contract of the
    file has its cluster and no modifier stands outside a contract, registering the file
    does not fail, and it only adds nodes: clusters and edges stay as they are and the
    nodes already there keep their order. *)
Theorem register_file_adds_only_nodes (deps : obj (list string)) (g : graph) (u : source_unit)
  (Hcl : forall c, In (IContract c) u -> getCluster g (cname c) = true)
  (Hmod : forall m, ~ In (IPart (PModifier m)) u) :
  exists g', register_file deps g u = Some g' /\ grows g g'.
Proof.
  assert (Hgen : forall cn cl g1, clusters g1 = clusters g ->
     exists cn' cl' g', fold_left (reg_item deps) u (Some (cn, cl, g1)) = Some (cn', cl', g')).
  { clear -Hcl Hmod. induction u as [|it u IH]; intros cn cl g1 Hc; [exists cn, cl, g1; reflexivity|].
    assert (Hcl' : forall c, In (IContract c) u -> getCluster g (cname c) = true)
      by (intros c Hc'; apply Hcl; right; exact Hc').
    assert (Hmod' : forall m, ~ In (IPart (PModifier m)) u)
      by (intros m Hm; apply (Hmod m); right; exact Hm).
    cbn [fold_left]. destruct it as [c|p|i]; cbn [reg_item].
    - assert (Hgc : getCluster g1 (cname c) = true)
        by (unfold getCluster; rewrite Hc; apply Hcl; left; reflexivity).
      rewrite Hgc. destruct (reg_parts_some deps (subNodes c) (cname c) (cname c) g1) as [g2 E]. rewrite E.
      apply (IH Hcl' Hmod'). destruct (reg_parts_grows _ _ _ _ _ _ _ _ E) as [_ [_ [C _]]]. congruence.
    - destruct (reg_part deps (Some (cn, cl, g1)) p) as [[[cn1 cl1] g2]|] eqn:E.
      + apply (IH Hcl' Hmod').
        assert (E' : fold_left (reg_part deps) [p] (Some (cn, cl, g1)) = Some (cn1, cl1, g2)) by exact E.
        destruct (reg_parts_grows _ _ _ _ _ _ _ _ E') as [_ [_ [C _]]]. congruence.
      + exfalso. destruct p; cbn [reg_part] in E; try discriminate; try (destruct cl; discriminate).
        apply (Hmod m). left. reflexivity.
    - exact (IH Hcl' Hmod' cn cl g1 Hc). }
  unfold register_file. destruct (Hgen "0_global" None g eq_refl) as [cn' [cl' [g' E]]]. rewrite E.
  exists g'. split; [reflexivity|exact (reg_items_grows _ _ _ _ _ _ _ _ E)].
Qed.

Lemma register_file_adds_only_nodes_witness :
  (forall c, In (IContract c) mod_sol ->
     getCluster (snd (pass1_file (init_decls, empty_graph) mod_sol)) (cname c) = true) /\
  (forall m, ~ In (IPart (PModifier m)) mod_sol) /\
  exists g', register_file (deps_of [mod_sol]) (snd (pass1_file (init_decls, empty_graph) mod_sol)) mod_sol = Some g' /\
             grows (snd (pass1_file (init_decls, empty_graph) mod_sol)) g'.
Proof.
  assert (Hcl : forall c, In (IContract c) mod_sol ->
     getCluster (snd (pass1_file (init_decls, empty_graph) mod_sol)) (cname c) = true).
  { intros c Hc. unfold mod_sol in Hc. destruct Hc as [Hc|[]]. injection Hc as <-. vm_compute. reflexivity. }
  assert (Hmod : forall m, ~ In (IPart (PModifier m)) mod_sol).
  { intros m Hm. unfold mod_sol in Hm. destruct Hm as [Hm|[]]. discriminate. }
  split; [exact Hcl|split; [exact Hmod|]].
  exact (register_file_adds_only_nodes (deps_of [mod_sol]) _ mod_sol Hcl Hmod).
Defined.

(** X3 The [FunctionCall] handler (graph.js 379-579): a call that is handled
    only appends clusters and cluster nodes, and either leaves the edges and the
    nodes of the digraph as they are, or appends exactly one edge, from the calling
    scope to some node name [b], whose two endpoints are added to the digraph's
    nodes if missing. *)
Theorem on_call_adds_at_most_one_edge d deps opts st g callee args g' :
  on_call d deps opts st g callee args = Some g' ->
  (exists t, clusters g' = clusters g ++ t) /\ (exists t, nodes g' = nodes g ++ t) /\
  ((edges g' = edges g /\ topNodes g' = topNodes g) \/
   exists s b col, callingScope st = Some s /\ edges g' = edges g ++ [(s, b, col)] /\
                   topNodes g' = sadd (sadd (topNodes g) s) b).
Proof. intros H. exact (on_call_spec d deps opts st g callee args g' H). Qed.

Lemma on_call_adds_at_most_one_edge_witness :
  let g := registered [bc_sol] in
  let st := scope_in [bc_sol] "C" "C.g" in
  let g' := some_or g (on_call (decls_of [bc_sol]) (deps_of [bc_sol]) no_options st g (EIdent "foo") []) in
  on_call (decls_of [bc_sol]) (deps_of [bc_sol]) no_options st g (EIdent "foo") [] = Some g' /\
  (exists t, clusters g' = clusters g ++ t) /\ (exists t, nodes g' = nodes g ++ t) /\
  ((edges g' = edges g /\ topNodes g' = topNodes g) \/
   exists s b col, callingScope st = Some s /\ edges g' = edges g ++ [(s, b, col)] /\
                   topNodes g' = sadd (sadd (topNodes g) s) b).
Proof.
  intros g st g'.
  assert (H : on_call (decls_of [bc_sol]) (deps_of [bc_sol]) no_options st g (EIdent "foo") [] = Some g')
    by (vm_compute; reflexivity).
  split; [exact H|exact (on_call_adds_at_most_one_edge _ _ _ _ _ _ _ _ H)].
Defined.

(** X4 The first loop of [graph(files, options)] (graph.js 57-66): after it,
    [content] holds the text of the last file it read (a directory leaves it as
    it was). The second loop does not set it, so every file's address-call names
    are cut from the text of that last file (see X14). *)
Theorem first_loop_content_is_last_text (read : string -> readres) (files : list string)
  (dg dg' : decls * graph)
  (H : first_loop read files dg = Some dg') :
  content (fst dg') =
  fold_left (fun c f => match read f with RSource t _ => t | _ => c end) files (content (fst dg)).
Proof. exact (first_loop_content read files dg dg' H). Qed.

Lemma first_loop_content_is_last_text_witness :
  let read := read_input (src_env [("X.sol", x_text, x_sol); ("Y.sol", y_text, y_sol)]) no_options in
  let r := first_loop read ["X.sol"; "Y.sol"] (init_decls, empty_graph) in
  r = Some (some_or (init_decls, empty_graph) r) /\
  content (fst (some_or (init_decls, empty_graph) r)) = y_text.
Proof.
  intros read r.
  assert (H : r = Some (some_or (init_decls, empty_graph) r)) by (vm_compute; reflexivity).
  split; [exact H|]. rewrite (first_loop_content_is_last_text _ _ _ _ H). vm_compute. reflexivity.
Defined.



(** X6 The [ContractDefinition] hook of the resolution visitor (graph.js
    305-315), after a first loop: in contract [n], a state variable name [k] is bound to
    [n]'s own declaration of [k] if there is one; else to the declaration of the contract
    of [n]'s linearization that comes LAST in it (the most basic ancestor) among those
    declaring [k]; else to the binding held before. The same holds for the table of
    user-defined-type state variables. *)
Theorem enter_contract_state_var_bindings (read : string -> readres) (files : list string) (d : decls) (g : graph)
  (deps : obj (list string)) (st : scope) (n k : string)
  (Hrun : first_loop read files (init_decls, empty_graph) = Some (d, g)) :
  get (tempStateVars (enter_contract d deps st n)) k =
    match get (getd [] (stateVars d) n) k with
    | Some v => Some v
    | None =>
        match find (fun dep => has (getd [] (stateVars d) dep) k) (rev (getd [] deps n)) with
        | Some dep => get (getd [] (stateVars d) dep) k
        | None => get (tempStateVars st) k
        end
    end /\
  get (tempUserDefinedStateVars (enter_contract d deps st n)) k =
    match get (getd [] (userDefinedStateVars d) n) k with
    | Some v => Some v
    | None =>
        match find (fun dep => has (getd [] (userDefinedStateVars d) dep) k) (rev (getd [] deps n)) with
        | Some dep => get (getd [] (userDefinedStateVars d) dep) k
        | None => get (tempUserDefinedStateVars st) k
        end
    end.
Proof.
  destruct (first_loop_vars _ _ _ _ Hrun init_vars) as [H1 H2]. cbn [fst] in H1, H2.
  unfold enter_contract. cbn [tempStateVars tempUserDefinedStateVars].
  rewrite !get_assign, !get_rev_nodup by (apply tab_getd; assumption).
  rewrite !get_fold_assign by (intros; apply tab_getd; assumption).
  split; reflexivity.
Qed.

Lemma enter_contract_state_var_bindings_witness :
  let r := first_loop (read_from [("S.sol", shadow_text, shadow_sol)]) ["S.sol"] (init_decls, empty_graph) in
  let d := fst (some_or (init_decls, empty_graph) r) in
  let g := snd (some_or (init_decls, empty_graph) r) in
  let deps := some_or [] (linearize (dependencies d)) in
  r = Some (d, g) /\
  get (tempStateVars (enter_contract d deps init_scope "D")) "x" = Some (Some "uint256").
Proof.
  intros r d g deps.
  assert (Hrun : r = Some (d, g)) by (vm_compute; reflexivity).
  split; [exact Hrun|].
  destruct (enter_contract_state_var_bindings _ _ _ _ deps init_scope "D" "x" Hrun) as [E _]. rewrite E. vm_compute. reflexivity.
Defined.

(** X7 [importProfiler] (importer.js 16-59): a successful run returns the
    paths of [importedFiles] first, followed by new ones; if [importedFiles] held distinct
    valid and parsed paths, so does the result: no path twice, each one starting with the
    project directory as a string, ending in [.sol], and read and parsed. *)
Theorem importProfiler_result_invariant (fuel : nat) (fs : fsys) (pd : path) (files : list string) (imp out : list path)
  (H : importProfiler fuel fs pd files imp = Ok out) (Hok : imported_ok fs pd imp) :
  imported_ok fs pd out /\ exists t, out = imp ++ t.
Proof. exact (importProfiler_inv fuel fs pd files imp out H Hok). Qed.

Lemma importProfiler_result_invariant_witness :
  importProfiler 5 imp_fs ["proj"] ["src/Token.sol"] [] =
    Ok [["proj"; "src"; "Token.sol"]; ["proj"; "src"; "A.sol"];
        ["proj"; "lib"; "openzeppelin"; "token"; "ERC20.sol"]] /\
  imported_ok imp_fs ["proj"] [] /\
  imported_ok imp_fs ["proj"]
    [["proj"; "src"; "Token.sol"]; ["proj"; "src"; "A.sol"]; ["proj"; "lib"; "openzeppelin"; "token"; "ERC20.sol"]].
Proof.
  assert (H : importProfiler 5 imp_fs ["proj"] ["src/Token.sol"] [] =
    Ok [["proj"; "src"; "Token.sol"]; ["proj"; "src"; "A.sol"];
        ["proj"; "lib"; "openzeppelin"; "token"; "ERC20.sol"]]) by (vm_compute; reflexivity).
  assert (Hok : imported_ok imp_fs ["proj"] []) by (split; [constructor|intros p []]).
  split; [exact H|split; [exact Hok|exact (proj1 (importProfiler_result_invariant _ _ _ _ _ _ H Hok))]].
Defined.

(** X8 The [ImportDirective] visitor of [importProfiler] (importer.js 46-52):
    every path collected from a file's imports is an existing regular file and is not
    already in [importedFiles]. *)
Theorem resolve_all_new_existing_files (fs : fsys) (file pd : path) (imp : list path) (ps : list string) (new : list path)
  (H : resolve_all fs file pd imp ps = Ok new) :
  forall p, In p new -> is_file fs p = true /\ ~ In p imp.
Proof. exact (resolve_all_spec fs file pd imp ps new H). Qed.

Lemma resolve_all_new_existing_files_witness :
  resolve_all imp_fs ["proj"; "src"; "Token.sol"] ["proj"] [["proj"; "src"; "Token.sol"]]
    ["./A.sol"; "@oz/token/ERC20.sol"; "./Token.sol"] =
    Ok [["proj"; "src"; "A.sol"]; ["proj"; "lib"; "openzeppelin"; "token"; "ERC20.sol"]] /\
  forall p, In p [["proj"; "src"; "A.sol"]; ["proj"; "lib"; "openzeppelin"; "token"; "ERC20.sol"]] ->
    is_file imp_fs p = true /\ ~ In p [["proj"; "src"; "Token.sol"]].
Proof.
  assert (H : resolve_all imp_fs ["proj"; "src"; "Token.sol"] ["proj"] [["proj"; "src"; "Token.sol"]]
    ["./A.sol"; "@oz/token/ERC20.sol"; "./Token.sol"] =
    Ok [["proj"; "src"; "A.sol"]; ["proj"; "lib"; "openzeppelin"; "token"; "ERC20.sol"]])
    by (vm_compute; reflexivity).
  split; [exact H|exact (resolve_all_new_existing_files _ _ _ _ _ _ H)].
Defined.

(** X9 The upward walk of [resolveImportPath] (importer.js 81-106): the
    directory it stops at is the parent of the importing file's directory or one of its
    ancestors, and it contains [node_modules] or [remappings.txt], as the two flags
    returned say. *)
Theorem walk_from_ancestor_directory (fs : fsys) (base pd D : path) (nm fr : bool)
  (H : walk_from fs base pd = Ok (D, nm, fr)) :
  (exists t, removelast (removelast base) = D ++ t) /\
  nm = memb "node_modules" (readdir fs D) /\ fr = memb "remappings.txt" (readdir fs D) /\
  (nm || fr) = true.
Proof. unfold walk_from in H. exact (walk_spec _ _ _ _ _ _ _ _ H). Qed.

Lemma walk_from_ancestor_directory_witness :
  walk_from imp_fs ["proj"; "src"; "Token.sol"] ["proj"] = Ok (["proj"], false, true) /\
  (exists t, removelast (removelast ["proj"; "src"; "Token.sol"]) = ["proj"] ++ t) /\
  false = memb "node_modules" (readdir imp_fs ["proj"]) /\
  true = memb "remappings.txt" (readdir imp_fs ["proj"]) /\ (false || true) = true.
Proof.
  assert (H : walk_from imp_fs ["proj"; "src"; "Token.sol"] ["proj"] = Ok (["proj"], false, true))
    by (vm_compute; reflexivity).
  split; [exact H|exact (walk_from_ancestor_directory _ _ _ _ _ _ H)].
Defined.





(** X12 The registration visitor (graph.js 239-247, 249-277): the exit hook of a
    contract resets the contract name but not the cluster, so a file-level function that
    follows a contract is registered as [0_global.<name>] (or a merged name) in the
    cluster of that contract. *)
Theorem free_function_after_contract_in_its_cluster (deps : obj (list string)) (g : graph) (u : source_unit) (c : contract) (f : func)
  (Hc : getCluster g (cname c) = true) :
  register_file deps g (u ++ [IContract c; IPart (PFunction f)]) =
  obind (register_file deps g (u ++ [IContract c]))
        (fun g1 => Some (addNode g1 (cname c) (nodeName deps g1 (functionName f) "0_global"))).
Proof.
  unfold register_file. rewrite !fold_left_app.
  destruct (fold_left (reg_item deps) u (Some ("0_global", None, g))) as [[[cn cl] g1]|] eqn:E;
    [|rewrite !reg_items_none; reflexivity].
  destruct (reg_items_grows _ _ _ _ _ _ _ _ E) as [C _].
  assert (Hc1 : getCluster g1 (cname c) = true) by (unfold getCluster in *; rewrite C; exact Hc).
  cbn [fold_left reg_item]. rewrite Hc1.
  destruct (reg_parts_some deps (subNodes c) (cname c) (cname c) g1) as [g2 E2]. rewrite E2.
  reflexivity.
Qed.

Lemma free_function_after_contract_in_its_cluster_witness :
  getCluster (mkGraph ["K"] [] [] []) "K" = true /\
  register_file [] (mkGraph ["K"] [] [] []) [IContract (mkContract "K" KContract [] []); IPart (PFunction free_g)] =
    Some (mkGraph ["K"] [("K", "0_global.g")] [] []).
Proof.
  assert (Hc : getCluster (mkGraph ["K"] [] [] []) (cname (mkContract "K" KContract [] [])) = true) by reflexivity.
  split; [exact Hc|].
  change [IContract (mkContract "K" KContract [] []); IPart (PFunction free_g)]
    with ([] ++ [IContract (mkContract "K" KContract [] []); IPart (PFunction free_g)]).
  rewrite (free_function_after_contract_in_its_cluster [] (mkGraph ["K"] [] [] []) [] (mkContract "K" KContract [] []) free_g Hc).
  vm_compute. reflexivity.
Defined.

(** X13 The first loop of [graph(files, options)] (graph.js 37-83): when the
    inputs are used as given (the import closure is off, or the entries are
    source texts), one entry that cannot be read or parsed (other than a
    directory) makes the whole run fail. *)
Theorem graph_run_unreadable_input_fails (e : env) (opts : options) (files : list string) (f : string)
  (Himp : negb (contentsInFilePath opts) && importer opts = false)
  (Hin : In f files) (Hf : read_input e opts f = RFail) :
  graph_run e opts files = None.
Proof.
  rewrite graph_run_cons by (intros E; rewrite E in Hin; destruct Hin).
  unfold graph_files. rewrite Himp. cbn [obind].
  rewrite (first_loop_fail _ _ f _ (dedup_In _ _ Hin) Hf). reflexivity.
Qed.

Lemma graph_run_unreadable_input_fails_witness :
  read_input proj_env no_options "src/B.sol" = RFail /\
  graph_run proj_env no_options ["src/A.sol"; "src/B.sol"] = None.
Proof.
  assert (Hf : read_input proj_env no_options "src/B.sol" = RFail) by (vm_compute; reflexivity).
  split; [exact Hf|].
  apply (graph_run_unreadable_input_fails proj_env no_options ["src/A.sol"; "src/B.sol"] "src/B.sol").
  - reflexivity.
  - right. left. reflexivity.
  - exact Hf.
Defined.

(** X14 The [FunctionCall] handler on [address(n).call(a, ...)] (graph.js
    418-441, 515-579): outside the using-for dispatch and with [n] neither
    [this], [super] nor a state or local variable of user-defined type, the
    edge goes from the calling scope to the node [nodeName] gives for the member
    named by the text of [a], cut by [a]'s source range out of [content] (the
    text of the last file the first loop read, X4), in the cluster [n]. *)
Theorem address_call_member_from_content (d : decls) (deps : obj (list string)) (opts : options)
  (st : scope) (g : graph) (s n : string) (r0 : range) (more : list (expr * range))
  (a : expr) (r : range) (args : list (expr * range))
  (Hscope : callingScope st = Some s)
  (Hset : has (functionsPerContract d) "[object Set]" = false)
  (Hthis : String.eqb n "this" = false) (Hsuper : String.eqb n "super" = false)
  (Htud : get (tempUserDefinedStateVars st) n = None)
  (Hudl : get (userDefinedLocalVars st) n = None) :
  on_call d deps opts st g (EMember (ETypeConv "address" ((EIdent n, r0) :: more)) "call") ((a, r) :: args) =
  Some (let g1 := if getCluster g n then g else addCluster g n in
        let lnn := nodeName deps g1 (arg_text d r) n in
        addEdge (if getNode g1 lnn then g1 else addNode g1 n lnn) s lnn CDefault).
Proof.
  unfold on_call. rewrite Hscope. cbn [isRegularFunctionCall].
  unfold member_target, member_object. cbn [obind isMemberAccessOfAddress].
  change (String.eqb "call" "call") with true. cbv iota.
  rewrite (using_for_keeps d opts _ _ _ Hset), Hthis, Hsuper, Htud, Hudl. reflexivity.
Qed.

Lemma address_call_member_from_content_witness :
  let d := fst (some_or (init_decls, empty_graph)
                  (first_loop (read_input (src_env [("X.sol", x_text, x_sol); ("Y.sol", y_text, y_sol)]) no_options)
                              ["X.sol"; "Y.sol"] (init_decls, empty_graph))) in
  arg_text d (60, 65) = "ic {} " /\
  on_call d (deps_of [x_sol; y_sol]) no_options (scope_in [x_sol; y_sol] "X" "X.f") (registered [x_sol; y_sol])
          (EMember (ETypeConv "address" [(EIdent "t", (52, 52))]) "call") [(ELit, (60, 65))] =
  Some (mkGraph ["X"; "Y"; "t"] [("X", "X.f"); ("Y", "Y.h"); ("Y", "Y.withdraw"); ("t", "t.ic {} ")]
                ["X.f"; "t.ic {} "] [("X.f", "t.ic {} ", CDefault)]).
Proof.
  intros d.
  assert (Ht : arg_text d (60, 65) = "ic {} ") by (vm_compute; reflexivity).
  split; [exact Ht|].
  eapply eq_trans; [apply (address_call_member_from_content d (deps_of [x_sol; y_sol]) no_options
             (scope_in [x_sol; y_sol] "X" "X.f") (registered [x_sol; y_sol]) "X.f" "t" (52, 52) []
             ELit (60, 65) [])|]; vm_compute; reflexivity.
Defined.
